(** * Instrumented merge sort (algorithm.py, class MergeSort)

    A shallow embedding of [MergeSort.merge_sort], [_merge_sort_recursive]
    and [_merge], with the engine's trace and counters threaded as explicit
    state and Python's [IndexError] as an error result.  List indices and
    counters are non-negative Python integers and are modelled by [nat];
    elements are any type with a boolean [<=].  The last part covers the
    sample generators and the array display of utils.py. *)

From Equations Require Import Equations.
From Stdlib Require Import List Arith Lia Bool Permutation Sorted ZArith.
From Stdlib Require String DecimalString.
Import ListNotations.
Import String.StringSyntax.
Delimit Scope string_scope with string.
Bind Scope string_scope with String.string.

Set Implicit Arguments.

(** ** Results of fallible code: a value, or Python's IndexError

    An exception ends the call; the engine state it leaves behind is not
    modelled. *)

Inductive result (X : Type) : Type :=
| Ok (x : X)
| IndexError.
Arguments Ok {X} x.
Arguments IndexError {X}.

Definition bind {X Y : Type} (r : result X) (f : X -> result Y) : result Y :=
  match r with
  | Ok x => f x
  | IndexError => IndexError
  end.

Notation "x <- r ;; k" := (bind r (fun x => k))
  (at level 61, r at next level, right associativity).
Notation "' p <- r ;; k" := (bind r (fun x => let 'p := x in k))
  (at level 61, p pattern, r at next level, right associativity).

(** Case analysis on a value that keeps the equation with the value. *)
Definition inspect {X : Type} (x : X) : {y : X | x = y} := exist _ x eq_refl.

(** Elements tagged with their input position; [<=] looks at the value
    only, as [NumberWithPosition.__le__] in the tests. *)
Definition tagged_leb (a b : Z * nat) : bool := Z.leb (fst a) (fst b).

Definition tag (l : list Z) : list (Z * nat) := combine l (seq 0 (length l)).

Section Engine.

Variable A : Type.

(** Python's [a <= b] on elements. *)
Variable leb : A -> A -> bool.

(** ** Step records

    The dictionaries appended to [self.steps], one constructor per value of
    the ['type'] key.  The ['description'] string is a rendering of the other
    fields and is left out. *)

Inductive Step : Type :=
| Divide (array : list A) (left right mid : nat)
| MergeStart (array : list A) (left mid right : nat)
             (left_subarray right_subarray : list A)
| MergeStep (array : list A) (comparing : A * A) (chosen : A) (position : nat)
| MergeRemaining (array : list A) (element : A) (position : nat)
| MergeComplete (array : list A) (left right : nat).

(** The fields of a MergeSort instance. *)
Record Engine : Type := mkEngine {
  steps : list Step;
  comparisons : nat;
  array_accesses : nat
}.

(** [MergeSort.__init__] *)
Definition init : Engine := mkEngine [] 0 0.

(** [self.steps.append(s)] *)
Definition append_step (s : Step) (e : Engine) : Engine :=
  mkEngine (steps e ++ [s]) (comparisons e) (array_accesses e).

(** [if track_steps: self.steps.append(s)] *)
Definition track (track_steps : bool) (s : Step) (e : Engine) : Engine :=
  if track_steps then append_step s e else e.

(** [self.comparisons += n] *)
Definition add_comparisons (n : nat) (e : Engine) : Engine :=
  mkEngine (steps e) (comparisons e + n) (array_accesses e).

(** [self.array_accesses += n] *)
Definition add_accesses (n : nat) (e : Engine) : Engine :=
  mkEngine (steps e) (comparisons e) (array_accesses e + n).

(** ** Python list operations, for non-negative indices *)

(** [l[i]]: IndexError when [i >= len(l)]. *)
Definition get (l : list A) (i : nat) : result A :=
  match nth_error l i with
  | Some x => Ok x
  | None => IndexError
  end.

(** [l[k] = v]: IndexError when [k >= len(l)]. *)
Fixpoint set (l : list A) (k : nat) (v : A) : result (list A) :=
  match l, k with
  | [], _ => IndexError
  | _ :: t, 0 => Ok (v :: t)
  | x :: t, S k' => t' <- set t k' v ;; Ok (x :: t')
  end.

(** [l[lo:hi]]: a fresh list, both bounds clamped to the length. *)
Definition slice (l : list A) (lo hi : nat) : list A :=
  skipn lo (firstn hi l).

(** ** The loops of [_merge]

    The local variables [i], [j], [k] and the list [arr] that the loops
    update. *)

Record Cursor : Type := mkCursor {
  ci : nat;
  cj : nat;
  ck : nat;
  carr : list A
}.

(** Body of [while i < len(left_arr) and j < len(right_arr)]. *)
Definition compare_body (left_arr right_arr : list A) (track_steps : bool)
    (c : Cursor) (e : Engine) : result (Cursor * Engine) :=
  let e := add_comparisons 1 e in
  let e := add_accesses 2 e in
  x <- get left_arr (ci c) ;;
  y <- get right_arr (cj c) ;;
  if leb x y then
    arr <- set (carr c) (ck c) x ;;
    let e := track track_steps (MergeStep arr (x, y) x (ck c)) e in
    Ok (mkCursor (ci c + 1) (cj c) (ck c + 1) arr, add_accesses 1 e)
  else
    arr <- set (carr c) (ck c) y ;;
    let e := track track_steps (MergeStep arr (x, y) y (ck c)) e in
    Ok (mkCursor (ci c) (cj c + 1) (ck c + 1) arr, add_accesses 1 e).

(** Body of [while i < len(left_arr)]. *)
Definition drain_left_body (left_arr : list A) (track_steps : bool)
    (c : Cursor) (e : Engine) : result (Cursor * Engine) :=
  x <- get left_arr (ci c) ;;
  arr <- set (carr c) (ck c) x ;;
  let e := track track_steps (MergeRemaining arr x (ck c)) e in
  Ok (mkCursor (ci c + 1) (cj c) (ck c + 1) arr, add_accesses 1 e).

(** Body of [while j < len(right_arr)]. *)
Definition drain_right_body (right_arr : list A) (track_steps : bool)
    (c : Cursor) (e : Engine) : result (Cursor * Engine) :=
  y <- get right_arr (cj c) ;;
  arr <- set (carr c) (ck c) y ;;
  let e := track track_steps (MergeRemaining arr y (ck c)) e in
  Ok (mkCursor (ci c) (cj c + 1) (ck c + 1) arr, add_accesses 1 e).

Lemma compare_body_measure left_arr right_arr t c e c' e' :
  (ci c <? length left_arr) && (cj c <? length right_arr) = true ->
  compare_body left_arr right_arr t c e = Ok (c', e') ->
  (length left_arr - ci c') + (length right_arr - cj c')
  < (length left_arr - ci c) + (length right_arr - cj c).
Proof.
  intros Hc Hb. apply andb_true_iff in Hc. destruct Hc as [Hi Hj].
  apply Nat.ltb_lt in Hi. apply Nat.ltb_lt in Hj.
  unfold compare_body in Hb.
  destruct (get left_arr (ci c)) as [x|]; [|discriminate].
  destruct (get right_arr (cj c)) as [y|]; [|discriminate].
  cbn [bind] in Hb.
  destruct (leb x y);
    destruct (set (carr c) (ck c) _) as [arr|]; try discriminate;
    cbn [bind] in Hb; injection Hb as <- _; cbn; lia.
Qed.

Lemma drain_left_body_measure left_arr t c e c' e' :
  (ci c <? length left_arr) = true ->
  drain_left_body left_arr t c e = Ok (c', e') ->
  length left_arr - ci c' < length left_arr - ci c.
Proof.
  intros Hi Hb. apply Nat.ltb_lt in Hi. unfold drain_left_body in Hb.
  destruct (get left_arr (ci c)) as [x|]; [|discriminate].
  cbn [bind] in Hb.
  destruct (set (carr c) (ck c) _) as [arr|]; try discriminate.
  cbn [bind] in Hb. injection Hb as <- _. cbn. lia.
Qed.

Lemma drain_right_body_measure right_arr t c e c' e' :
  (cj c <? length right_arr) = true ->
  drain_right_body right_arr t c e = Ok (c', e') ->
  length right_arr - cj c' < length right_arr - cj c.
Proof.
  intros Hj Hb. apply Nat.ltb_lt in Hj. unfold drain_right_body in Hb.
  destruct (get right_arr (cj c)) as [y|]; [|discriminate].
  cbn [bind] in Hb.
  destruct (set (carr c) (ck c) _) as [arr|]; try discriminate.
  cbn [bind] in Hb. injection Hb as <- _. cbn. lia.
Qed.

(** [while i < len(left_arr) and j < len(right_arr): ...] *)
Equations compare_loop (left_arr right_arr : list A) (track_steps : bool)
    (c : Cursor) (e : Engine) : result (Cursor * Engine)
    by wf ((length left_arr - ci c) + (length right_arr - cj c)) lt :=
  compare_loop left_arr right_arr track_steps c e
    with inspect ((ci c <? length left_arr) && (cj c <? length right_arr)) := {
    | exist _ false _ := Ok (c, e);
    | exist _ true Hc
        with inspect (compare_body left_arr right_arr track_steps c e) := {
        | exist _ IndexError _ := IndexError;
        | exist _ (Ok (c', e')) Hb :=
            compare_loop left_arr right_arr track_steps c' e' } }.
Next Obligation.
  eapply compare_body_measure; eauto.
Qed.

(** [while i < len(left_arr): ...] *)
Equations drain_left_loop (left_arr : list A) (track_steps : bool)
    (c : Cursor) (e : Engine) : result (Cursor * Engine)
    by wf (length left_arr - ci c) lt :=
  drain_left_loop left_arr track_steps c e
    with inspect (ci c <? length left_arr) := {
    | exist _ false _ := Ok (c, e);
    | exist _ true Hc
        with inspect (drain_left_body left_arr track_steps c e) := {
        | exist _ IndexError _ := IndexError;
        | exist _ (Ok (c', e')) Hb :=
            drain_left_loop left_arr track_steps c' e' } }.
Next Obligation.
  eapply drain_left_body_measure; eauto.
Qed.

(** [while j < len(right_arr): ...] *)
Equations drain_right_loop (right_arr : list A) (track_steps : bool)
    (c : Cursor) (e : Engine) : result (Cursor * Engine)
    by wf (length right_arr - cj c) lt :=
  drain_right_loop right_arr track_steps c e
    with inspect (cj c <? length right_arr) := {
    | exist _ false _ := Ok (c, e);
    | exist _ true Hc
        with inspect (drain_right_body right_arr track_steps c e) := {
        | exist _ IndexError _ := IndexError;
        | exist _ (Ok (c', e')) Hb :=
            drain_right_loop right_arr track_steps c' e' } }.
Next Obligation.
  eapply drain_right_body_measure; eauto.
Qed.

(** [MergeSort._merge]: returns the updated contents of [arr]. *)
Definition _merge (arr : list A) (left mid right : nat) (track_steps : bool)
    (e : Engine) : result (list A * Engine) :=
  let left_arr := slice arr left (mid + 1) in
  let right_arr := slice arr (mid + 1) (right + 1) in
  let e := track track_steps
             (MergeStart arr left mid right left_arr right_arr) e in
  let c := mkCursor 0 0 left arr in
  '(c, e) <- compare_loop left_arr right_arr track_steps c e ;;
  '(c, e) <- drain_left_loop left_arr track_steps c e ;;
  '(c, e) <- drain_right_loop right_arr track_steps c e ;;
  let e := track track_steps (MergeComplete (carr c) left right) e in
  Ok (carr c, e).

(** [mid = (left + right) // 2] lies in the range when [left < right]. *)
Lemma mid_bounds lo hi : lo < hi -> lo <= (lo + hi) / 2 < hi.
Proof.
  intros H. split.
  - apply Nat.div_le_lower_bound; lia.
  - apply Nat.Div0.div_lt_upper_bound; lia.
Qed.

(** [MergeSort._merge_sort_recursive]: [arr] is updated in place and
    returned; here the updated contents are returned.  The parameters [left]
    and [right] are written [lo] and [hi]. *)
Equations _merge_sort_recursive (arr : list A) (lo hi : nat)
    (track_steps : bool) (e : Engine) : result (list A * Engine)
    by wf (hi - lo) lt :=
  _merge_sort_recursive arr lo hi track_steps e
    with inspect (hi <=? lo) := {
    | exist _ true _ := Ok (arr, e);
    | exist _ false Hlt :=
        let mid := (lo + hi) / 2 in
        let e := track track_steps (Divide arr lo hi mid) e in
        '(arr, e) <- _merge_sort_recursive arr lo mid track_steps e ;;
        '(arr, e) <- _merge_sort_recursive arr (mid + 1) hi track_steps e ;;
        _merge arr lo mid hi track_steps e }.
Next Obligation.
  apply Nat.leb_gt in Hlt.
  change (fst (Nat.divmod (lo + hi) 1 0 1)) with ((lo + hi) / 2).
  pose proof (mid_bounds Hlt). lia.
Qed.
Next Obligation.
  apply Nat.leb_gt in Hlt.
  change (fst (Nat.divmod (lo + hi) 1 0 1)) with ((lo + hi) / 2).
  pose proof (mid_bounds Hlt). lia.
Qed.

(** [MergeSort.merge_sort], on the contents of the caller's list. *)
Definition merge_sort (arr : list A) (track_steps : bool) (e : Engine)
    : result (list A * Engine) :=
  let e := if track_steps then mkEngine [] 0 0 else e in
  if length arr <=? 1 then Ok (arr, e)
  else _merge_sort_recursive arr 0 (length arr - 1) track_steps e.

(** ** The caller's list object

    [merge_sort] receives a reference to the caller's list.  For at most one
    element it returns that same reference; otherwise [arr.copy()] allocates
    a new list, and [_merge_sort_recursive] and [_merge] write only through
    their parameter [arr], which is bound to the copy.  Objects are numbered;
    [next] is the first unused number. *)

Record Heap : Type := mkHeap {
  objs : nat -> list A;
  next : nat
}.

Definition load (h : Heap) (p : nat) : list A := objs h p.

Definition alloc (h : Heap) (v : list A) : nat * Heap :=
  (next h, mkHeap (fun q => if q =? next h then v else objs h q) (S (next h))).

Definition store (h : Heap) (p : nat) (v : list A) : Heap :=
  mkHeap (fun q => if q =? p then v else objs h q) (next h).

(** [MergeSort.merge_sort] on a reference [p]: returns the reference of the
    result. *)
Definition merge_sort_ref (h : Heap) (p : nat) (track_steps : bool)
    (e : Engine) : result (nat * Heap * Engine) :=
  let e := if track_steps then mkEngine [] 0 0 else e in
  if length (load h p) <=? 1 then Ok (p, h, e)
  else
    let '(q, h1) := alloc h (load h p) in
    '(out, e) <- _merge_sort_recursive (load h1 q) 0 (length (load h1 p) - 1)
                   track_steps e ;;
    Ok (q, store h1 q out, e).

(** ** Reference functions on lists

    What the loops of [_merge] and the recursion compute, as functions on
    lists; the embedded code is related to them below. *)

(** The interleaving done by the three loops of [_merge]. *)
Fixpoint merge_lists (l r : list A) {struct l} : list A :=
  let fix merge_aux (r : list A) {struct r} : list A :=
    match l, r with
    | [], _ => r
    | _, [] => l
    | x :: l', y :: r' =>
        if leb x y then x :: merge_lists l' r else y :: merge_aux r'
    end
  in merge_aux r.

(** The number of iterations of the comparing loop. *)
Fixpoint ncmp (l r : list A) {struct l} : nat :=
  let fix ncmp_aux (r : list A) {struct r} : nat :=
    match l, r with
    | [], _ => 0
    | _, [] => 0
    | x :: l', y :: r' =>
        if leb x y then S (ncmp l' r) else S (ncmp_aux r')
    end
  in ncmp_aux r.

(** Size of the left half [left..mid] of a range of [n] elements. *)
Definition half (n : nat) : nat := (n - 1) / 2 + 1.

(** What [_merge_sort_recursive] leaves in the range it is called on. *)
Equations sort_list (l : list A) : list A by wf (length l) lt :=
  sort_list l with inspect (length l <=? 1) := {
    | exist _ true _ := l;
    | exist _ false Hlen :=
        merge_lists (sort_list (firstn (half (length l)) l))
                    (sort_list (skipn (half (length l)) l)) }.
Next Obligation.
  apply Nat.leb_gt in Hlen. rewrite length_firstn.
  assert ((length l - 1) / 2 < length l - 1)
    by (apply Nat.div_lt; lia).
  unfold half. change (fst (Nat.divmod (length l - 1) 1 0 1))
    with ((length l - 1) / 2). lia.
Qed.
Next Obligation.
  apply Nat.leb_gt in Hlen. rewrite length_skipn.
  unfold half. lia.
Qed.

(** ** Effects on the engine

    A step record of kind MergeStep is consistent when the chosen value is
    the left compared value if [left <= right] and the right one otherwise,
    and the snapshot holds the chosen value at the recorded position. *)

Definition step_ok (s : Step) : Prop :=
  match s with
  | MergeStep array (x, y) chosen position =>
      chosen = (if leb x y then x else y) /\
      nth_error array position = Some chosen
  | _ => True
  end.

Definition is_merge_step (s : Step) : bool :=
  match s with MergeStep _ _ _ _ => true | _ => false end.

Definition is_merge_remaining (s : Step) : bool :=
  match s with MergeRemaining _ _ _ => true | _ => false end.

(** Number of records of one kind in a trace. *)
Definition count (f : Step -> bool) (T : list Step) : nat :=
  length (filter f T).

(** [effect t e e' c d]: from [e] to [e'] the code made [c] comparisons and
    [d] drain copies; the records appended are consistent and, when
    tracking, there are [c] MergeStep and [d] MergeRemaining records among
    them; without tracking nothing is appended. *)
Definition effect (t : bool) (e e' : Engine) (c d : nat) : Prop :=
  exists T,
    steps e' = steps e ++ T /\
    Forall step_ok T /\
    (if t then count is_merge_step T = c /\ count is_merge_remaining T = d
     else T = []) /\
    comparisons e' = comparisons e + c /\
    array_accesses e' = array_accesses e + 3 * c + d.

(** ** Order on elements *)

(** [le x y]: Python's [x <= y] holds. *)
Definition le (x y : A) : Prop := leb x y = true.

(** [same_key x y]: [x] and [y] compare equal, [x <= y and y <= x]. *)
Definition same_key (x y : A) : bool := leb x y && leb y x.

(** ** Statistics and the shape of the trace *)

(** The dictionary returned by [MergeSort.get_statistics]. *)
Record Statistics : Type := mkStatistics {
  stat_comparisons : nat;
  stat_array_accesses : nat;
  stat_steps : nat
}.

(** [MergeSort.get_statistics] *)
Definition get_statistics (e : Engine) : Statistics :=
  mkStatistics (comparisons e) (array_accesses e) (length (steps e)).

Definition is_divide (s : Step) : bool :=
  match s with Divide _ _ _ _ => true | _ => false end.

Definition is_merge_start (s : Step) : bool :=
  match s with MergeStart _ _ _ _ _ _ => true | _ => false end.

Definition is_merge_complete (s : Step) : bool :=
  match s with MergeComplete _ _ _ => true | _ => false end.

(** The ['array'] entry of a step record. *)
Definition snapshot (s : Step) : list A :=
  match s with
  | Divide a _ _ _ => a
  | MergeStart a _ _ _ _ _ => a
  | MergeStep a _ _ _ => a
  | MergeRemaining a _ _ => a
  | MergeComplete a _ _ => a
  end.

(** [step_in_bounds n s]: the snapshot of [s] has [n] cells and every index
    that [s] records lies inside it; a Divide record carries the floor
    midpoint of its range, a MergeStart record the two halves of its range
    as they stand in its snapshot, a MergeRemaining record the value that
    its snapshot holds at the recorded position. *)
Definition step_in_bounds (n : nat) (s : Step) : Prop :=
  length (snapshot s) = n /\
  match s with
  | Divide _ l r m => l <= m /\ m < r /\ r < n /\ m = (l + r) / 2
  | MergeStart a l m r la ra =>
      l <= m /\ m < r /\ r < n /\
      la = slice a l (m + 1) /\ ra = slice a (m + 1) (r + 1)
  | MergeStep _ _ _ k => k < n
  | MergeRemaining a x k => k < n /\ nth_error a k = Some x
  | MergeComplete _ l r => l < r /\ r < n
  end.

(** [step_settled ref s]: for the records written between the loops (Divide,
    MergeStart, MergeComplete) the snapshot is a rearrangement of [ref]; the
    two buffers of a MergeStart record and the range of a MergeComplete
    record are outputs of [sort_list]. *)
Definition step_settled (ref : list A) (s : Step) : Prop :=
  match s with
  | Divide a _ _ _ => Permutation ref a
  | MergeStart a _ _ _ la ra =>
      Permutation ref a /\
      (exists l, la = sort_list l) /\ (exists l, ra = sort_list l)
  | MergeComplete a l r =>
      Permutation ref a /\ exists l0, slice a l (r + 1) = sort_list l0
  | MergeStep _ _ _ _ => True
  | MergeRemaining _ _ _ => True
  end.

Definition b2n (b : bool) : nat := if b then 1 else 0.

(** [trace_shape ref t T nd ns nc p]: the records [T] appended by a piece
    of code that, when tracking, wrote [nd] Divide, [ns] MergeStart and [nc]
    MergeComplete records and one record for each of [p] placements. *)
Definition trace_shape (ref : list A) (t : bool) (T : list Step)
    (nd ns nc p : nat) : Prop :=
  Forall (step_in_bounds (length ref)) T /\
  Forall (step_settled ref) T /\
  if t
  then count is_divide T = nd /\
       count is_merge_start T = ns /\
       count is_merge_complete T = nc /\
       count is_merge_step T + count is_merge_remaining T = p
  else T = [].

(** [grows ref t e e' nd ns nc p]: from [e] to [e'] the trace was extended
    by records of that shape. *)
Definition grows (ref : list A) (t : bool) (e e' : Engine)
    (nd ns nc p : nat) : Prop :=
  exists T, steps e' = steps e ++ T /\ trace_shape ref t T nd ns nc p.

(** The comparisons and the drain copies that [_merge_sort_recursive] makes
    on a range holding [l]. *)
Equations? sort_cost (l : list A) : nat * nat by wf (length l) lt :=
  sort_cost l with inspect (length l <=? 1) := {
    | exist _ true _ := (0, 0);
    | exist _ false Hlen :=
        let L := firstn (half (length l)) l in
        let R := skipn (half (length l)) l in
        let c := ncmp (sort_list L) (sort_list R) in
        (fst (sort_cost L) + fst (sort_cost R) + c,
         snd (sort_cost L) + snd (sort_cost R) + (length l - c)) }.
Proof.
  all: apply Nat.leb_gt in Hlen; unfold L, R;
    rewrite ?length_firstn, ?length_skipn;
    assert ((length l - 1) / 2 < length l - 1) by (apply Nat.div_lt; lia);
    unfold half;
    change (fst (Nat.divmod (length l - 1) 1 0 1))
      with ((length l - 1) / 2) in *;
    lia.
Qed.

(** ** Unfolding equations of the loops and of the recursion *)

Ltac by_inspect :=
  repeat match goal with
    | H : ?x = false |- context [if ?x then _ else _] => rewrite H
    | H : ?x = true |- context [if ?x then _ else _] => rewrite H
    | H : ?b = Ok _ |- context [bind ?b _] => rewrite H
    | H : ?b = IndexError |- context [bind ?b _] => rewrite H
    end;
  reflexivity.

Lemma compare_loop_eq la ra t c e :
  compare_loop la ra t c e =
  if (ci c <? length la) && (cj c <? length ra)
  then '(c', e') <- compare_body la ra t c e ;; compare_loop la ra t c' e'
  else Ok (c, e).
Proof. funelim (compare_loop la ra t c e); by_inspect. Qed.

Lemma drain_left_loop_eq la t c e :
  drain_left_loop la t c e =
  if ci c <? length la
  then '(c', e') <- drain_left_body la t c e ;; drain_left_loop la t c' e'
  else Ok (c, e).
Proof. funelim (drain_left_loop la t c e); by_inspect. Qed.

Lemma drain_right_loop_eq ra t c e :
  drain_right_loop ra t c e =
  if cj c <? length ra
  then '(c', e') <- drain_right_body ra t c e ;; drain_right_loop ra t c' e'
  else Ok (c, e).
Proof. funelim (drain_right_loop ra t c e); by_inspect. Qed.

Lemma _merge_sort_recursive_eq arr lo hi t e :
  _merge_sort_recursive arr lo hi t e =
  if hi <=? lo then Ok (arr, e)
  else
    let mid := (lo + hi) / 2 in
    let e := track t (Divide arr lo hi mid) e in
    '(arr, e) <- _merge_sort_recursive arr lo mid t e ;;
    '(arr, e) <- _merge_sort_recursive arr (mid + 1) hi t e ;;
    _merge arr lo mid hi t e.
Proof. funelim (_merge_sort_recursive arr lo hi t e); by_inspect. Qed.

Lemma sort_list_eq l :
  sort_list l =
  if length l <=? 1 then l
  else merge_lists (sort_list (firstn (half (length l)) l))
                   (sort_list (skipn (half (length l)) l)).
Proof. funelim (sort_list l); by_inspect. Qed.

Lemma merge_lists_nil_l r : merge_lists [] r = r.
Proof. destruct r; reflexivity. Qed.

Lemma merge_lists_nil_r l : merge_lists l [] = l.
Proof. destruct l; reflexivity. Qed.

Lemma merge_lists_cons x l y r :
  merge_lists (x :: l) (y :: r) =
  if leb x y then x :: merge_lists l (y :: r) else y :: merge_lists (x :: l) r.
Proof. reflexivity. Qed.

Lemma ncmp_nil_l r : ncmp [] r = 0.
Proof. destruct r; reflexivity. Qed.

Lemma ncmp_nil_r l : ncmp l [] = 0.
Proof. destruct l; reflexivity. Qed.

Lemma ncmp_cons x l y r :
  ncmp (x :: l) (y :: r) =
  if leb x y then S (ncmp l (y :: r)) else S (ncmp (x :: l) r).
Proof. reflexivity. Qed.

(** Induction on two lists along the recursion of [merge_lists]. *)
Lemma merge_ind (P : list A -> list A -> Prop) :
  (forall r, P [] r) ->
  (forall l, P l []) ->
  (forall x l y r, (leb x y = true -> P l (y :: r)) ->
                   (leb x y = false -> P (x :: l) r) ->
                   P (x :: l) (y :: r)) ->
  forall l r, P l r.
Proof.
  intros Hnl Hnr Hc. induction l as [|x l IHl]; [exact Hnl|].
  induction r as [|y r IHr]; [apply Hnr|].
  apply Hc; intros _; [apply IHl | exact IHr].
Qed.

Ltac merge_induction l r :=
  revert l r;
  match goal with
  | |- forall l r, @?P l r => apply (merge_ind P); cbv beta; intros
  end.

Lemma ncmp_le l r : ncmp l r + 1 <= length l + length r \/ ncmp l r = 0.
Proof.
  revert l r. apply merge_ind; intros.
  - right. apply ncmp_nil_l.
  - right. apply ncmp_nil_r.
  - left. rewrite ncmp_cons. cbn [length].
    destruct (leb x y).
    + destruct (H eq_refl) as [H1|H1]; cbn [length] in *; lia.
    + destruct (H0 eq_refl) as [H1|H1]; cbn [length] in *; lia.
Qed.

Lemma ncmp_pos l r : l <> [] -> r <> [] -> 1 <= ncmp l r.
Proof.
  destruct l as [|x l]; [congruence|]. destruct r as [|y r]; [congruence|].
  intros _ _. rewrite ncmp_cons. destruct (leb x y); lia.
Qed.

(** ** Reading and writing lists *)

Lemma get_skipn l i :
  i < length l -> exists x, get l i = Ok x /\ skipn i l = x :: skipn (S i) l.
Proof.
  revert i. induction l as [|a l IH]; intros i Hi; cbn [length] in Hi.
  - lia.
  - destruct i as [|i].
    + exists a. split; reflexivity.
    + destruct (IH i) as [x [Hg Hs]]; [lia|]. exists x. split.
      * unfold get in *. cbn [nth_error]. exact Hg.
      * cbn [skipn] in *. exact Hs.
Qed.

Lemma set_app P q Q v : set (P ++ q :: Q) (length P) v = Ok (P ++ v :: Q).
Proof.
  induction P as [|p P IH]; cbn [app length set].
  - reflexivity.
  - rewrite IH. reflexivity.
Qed.

Lemma nth_error_mid (P : list A) v Q : nth_error (P ++ v :: Q) (length P) = Some v.
Proof. induction P; cbn; auto. Qed.

Lemma count_app f T1 T2 : count f (T1 ++ T2) = count f T1 + count f T2.
Proof. unfold count. rewrite filter_app, length_app. reflexivity. Qed.

Lemma effect_refl t e : effect t e e 0 0.
Proof.
  exists []. rewrite app_nil_r.
  split; [reflexivity|]. split; [constructor|].
  split; [destruct t; auto|]. split; lia.
Qed.

Lemma effect_trans t e1 e2 e3 c1 d1 c2 d2 :
  effect t e1 e2 c1 d1 -> effect t e2 e3 c2 d2 ->
  effect t e1 e3 (c1 + c2) (d1 + d2).
Proof.
  intros (T1 & Hs1 & Hf1 & Ht1 & Hc1 & Ha1) (T2 & Hs2 & Hf2 & Ht2 & Hc2 & Ha2).
  exists (T1 ++ T2). repeat split.
  - rewrite Hs2, Hs1, app_assoc. reflexivity.
  - apply Forall_app. auto.
  - destruct t.
    + rewrite !count_app. lia.
    + rewrite Ht1, Ht2. reflexivity.
  - lia.
  - lia.
Qed.

Lemma effect_track t s e :
  is_merge_step s = false -> is_merge_remaining s = false ->
  effect t e (track t s e) 0 0.
Proof.
  intros H1 H2. destruct t; cbn [track]; [|apply effect_refl].
  exists [s]. cbn. unfold count. cbn. rewrite H1, H2.
  repeat split; auto; try lia.
  constructor; [|constructor]. destruct s; cbn in *; auto; discriminate.
Qed.

(** One iteration of the comparing loop. *)
Lemma compare_body_ok la ra t c e P q Q :
  ci c < length la -> cj c < length ra ->
  carr c = P ++ q :: Q -> ck c = length P ->
  exists x y e',
    skipn (ci c) la = x :: skipn (S (ci c)) la /\
    skipn (cj c) ra = y :: skipn (S (cj c)) ra /\
    compare_body la ra t c e =
      Ok (if leb x y
          then mkCursor (ci c + 1) (cj c) (ck c + 1) (P ++ x :: Q)
          else mkCursor (ci c) (cj c + 1) (ck c + 1) (P ++ y :: Q), e') /\
    effect t e e' 1 0.
Proof.
  intros Hi Hj Harr Hk.
  destruct (get_skipn la Hi) as (x & Hgx & Hsx).
  destruct (get_skipn ra Hj) as (y & Hgy & Hsy).
  unfold compare_body. rewrite Hgx, Hgy. cbn [bind].
  rewrite Harr, Hk, !set_app. cbn [bind].
  exists x, y. destruct (leb x y) eqn:Hxy.
  - eexists. repeat split; eauto.
    destruct t; cbn [track].
    + exists [MergeStep (P ++ x :: Q) (x, y) x (length P)].
      cbn. repeat split; try lia.
      constructor; [|constructor]. cbn. rewrite Hxy. split; auto.
      apply nth_error_mid.
    + exists []. cbn. rewrite app_nil_r. repeat split; auto; lia.
  - eexists. repeat split; eauto.
    destruct t; cbn [track].
    + exists [MergeStep (P ++ y :: Q) (x, y) y (length P)].
      cbn. repeat split; try lia.
      constructor; [|constructor]. cbn. rewrite Hxy. split; auto.
      apply nth_error_mid.
    + exists []. cbn. rewrite app_nil_r. repeat split; auto; lia.
Qed.

(** One iteration of a draining loop. *)
Lemma drain_left_body_ok la t c e P q Q :
  ci c < length la -> carr c = P ++ q :: Q -> ck c = length P ->
  exists x e',
    skipn (ci c) la = x :: skipn (S (ci c)) la /\
    drain_left_body la t c e =
      Ok (mkCursor (ci c + 1) (cj c) (ck c + 1) (P ++ x :: Q), e') /\
    effect t e e' 0 1.
Proof.
  intros Hi Harr Hk.
  destruct (get_skipn la Hi) as (x & Hgx & Hsx).
  unfold drain_left_body. rewrite Hgx. cbn [bind].
  rewrite Harr, Hk, !set_app. cbn [bind].
  exists x. eexists. repeat split; eauto.
  destruct t; cbn [track].
  - exists [MergeRemaining (P ++ x :: Q) x (length P)].
    cbn. repeat split; try lia. constructor; [exact I|constructor].
  - exists []. cbn. rewrite app_nil_r. repeat split; auto; lia.
Qed.

Lemma drain_right_body_ok ra t c e P q Q :
  cj c < length ra -> carr c = P ++ q :: Q -> ck c = length P ->
  exists y e',
    skipn (cj c) ra = y :: skipn (S (cj c)) ra /\
    drain_right_body ra t c e =
      Ok (mkCursor (ci c) (cj c + 1) (ck c + 1) (P ++ y :: Q), e') /\
    effect t e e' 0 1.
Proof.
  intros Hj Harr Hk.
  destruct (get_skipn ra Hj) as (y & Hgy & Hsy).
  unfold drain_right_body. rewrite Hgy. cbn [bind].
  rewrite Harr, Hk, !set_app. cbn [bind].
  exists y. eexists. repeat split; eauto.
  destruct t; cbn [track].
  - exists [MergeRemaining (P ++ y :: Q) y (length P)].
    cbn. repeat split; try lia. constructor; [exact I|constructor].
  - exists []. cbn. rewrite app_nil_r. repeat split; auto; lia.
Qed.

(** ** The loops

    The array is split as [P ++ Q] with [k = len(P)]: the loops overwrite
    the first cells of [Q] and leave [P] and the rest of [Q] alone. *)

Lemma drain_left_loop_spec la t :
  forall n c e P Q,
    n = length la - ci c -> ci c <= length la ->
    carr c = P ++ Q -> ck c = length P -> n <= length Q ->
    exists c' e',
      drain_left_loop la t c e = Ok (c', e') /\
      cj c' = cj c /\
      carr c' = (P ++ skipn (ci c) la) ++ skipn n Q /\
      ck c' = length (P ++ skipn (ci c) la) /\
      effect t e e' 0 n.
Proof.
  induction n as [|n IH]; intros c e P Q Hn Hi Harr Hk HQ.
  - rewrite drain_left_loop_eq.
    assert (Hc : (ci c <? length la) = false) by (apply Nat.ltb_ge; lia).
    rewrite Hc. exists c, e. rewrite skipn_all2 by lia.
    rewrite app_nil_r. cbn [skipn]. repeat split; auto using effect_refl.
  - rewrite drain_left_loop_eq.
    assert (Hc : (ci c <? length la) = true) by (apply Nat.ltb_lt; lia).
    rewrite Hc. destruct Q as [|q Q]; [cbn in HQ; lia|].
    destruct (@drain_left_body_ok la t c e P q Q) as (x & e1 & Hx & Hb & He);
      [lia|assumption|assumption|].
    rewrite Hb. cbn [bind].
    destruct (IH (mkCursor (ci c + 1) (cj c) (ck c + 1) (P ++ x :: Q)) e1
                 (P ++ [x]) Q) as (c' & e' & Hl & Hj' & Ha' & Hk' & He');
      cbn [ci cj ck carr].
    + lia.
    + lia.
    + rewrite <- app_assoc. reflexivity.
    + rewrite length_app. cbn. lia.
    + cbn in HQ. lia.
    + exists c', e'. rewrite Hl. cbn [ci] in Ha', Hk'.
      rewrite Nat.add_1_r in Ha', Hk'. rewrite Hx.
      replace (P ++ x :: skipn (S (ci c)) la)
        with ((P ++ [x]) ++ skipn (S (ci c)) la)
        by (rewrite <- app_assoc; reflexivity).
      cbn [skipn]. repeat split; auto.
      change (S n) with (1 + n). replace 0 with (0 + 0) by reflexivity.
      eapply effect_trans; eauto.
Qed.

Lemma drain_right_loop_spec ra t :
  forall n c e P Q,
    n = length ra - cj c -> cj c <= length ra ->
    carr c = P ++ Q -> ck c = length P -> n <= length Q ->
    exists c' e',
      drain_right_loop ra t c e = Ok (c', e') /\
      carr c' = (P ++ skipn (cj c) ra) ++ skipn n Q /\
      effect t e e' 0 n.
Proof.
  induction n as [|n IH]; intros c e P Q Hn Hj Harr Hk HQ.
  - rewrite drain_right_loop_eq.
    assert (Hc : (cj c <? length ra) = false) by (apply Nat.ltb_ge; lia).
    rewrite Hc. exists c, e. rewrite skipn_all2 by lia.
    rewrite app_nil_r. cbn [skipn]. repeat split; auto using effect_refl.
  - rewrite drain_right_loop_eq.
    assert (Hc : (cj c <? length ra) = true) by (apply Nat.ltb_lt; lia).
    rewrite Hc. destruct Q as [|q Q]; [cbn in HQ; lia|].
    destruct (@drain_right_body_ok ra t c e P q Q) as (y & e1 & Hy & Hb & He);
      [lia|assumption|assumption|].
    rewrite Hb. cbn [bind].
    destruct (IH (mkCursor (ci c) (cj c + 1) (ck c + 1) (P ++ y :: Q)) e1
                 (P ++ [y]) Q) as (c' & e' & Hl & Ha' & He');
      cbn [ci cj ck carr].
    + lia.
    + lia.
    + rewrite <- app_assoc. reflexivity.
    + rewrite length_app. cbn. lia.
    + cbn in HQ. lia.
    + exists c', e'. rewrite Hl. cbn [cj] in Ha'.
      rewrite Nat.add_1_r in Ha'. rewrite Hy.
      replace (P ++ y :: skipn (S (cj c)) ra)
        with ((P ++ [y]) ++ skipn (S (cj c)) ra)
        by (rewrite <- app_assoc; reflexivity).
      cbn [skipn]. repeat split; auto.
      change (S n) with (1 + n). replace 0 with (0 + 0) by reflexivity.
      eapply effect_trans; eauto.
Qed.

(** The three loops in sequence write the interleaving of what is left of
    the two buffers. *)
Lemma merge_loops_spec la ra t :
  forall n c e P Q,
    n = (length la - ci c) + (length ra - cj c) ->
    ci c <= length la -> cj c <= length ra ->
    carr c = P ++ Q -> ck c = length P -> n <= length Q ->
    exists c1 e1 c2 e2 c' e' d,
      compare_loop la ra t c e = Ok (c1, e1) /\
      drain_left_loop la t c1 e1 = Ok (c2, e2) /\
      drain_right_loop ra t c2 e2 = Ok (c', e') /\
      carr c' =
        P ++ merge_lists (skipn (ci c) la) (skipn (cj c) ra) ++ skipn n Q /\
      ncmp (skipn (ci c) la) (skipn (cj c) ra) + d = n /\
      effect t e e' (ncmp (skipn (ci c) la) (skipn (cj c) ra)) d.
Proof.
  induction n as [n IH] using lt_wf_ind.
  intros c e P Q Hn Hi Hj Harr Hk HQ.
  rewrite compare_loop_eq.
  destruct ((ci c <? length la) && (cj c <? length ra)) eqn:Hc.
  - apply andb_true_iff in Hc. destruct Hc as [Hi' Hj'].
    apply Nat.ltb_lt in Hi'. apply Nat.ltb_lt in Hj'.
    destruct Q as [|q Q]; [cbn in HQ; lia|].
    destruct (@compare_body_ok la ra t c e P q Q)
      as (x & y & e0 & Hx & Hy & Hb & He); try assumption.
    rewrite Hb. cbn [bind]. rewrite Hx, Hy, merge_lists_cons, ncmp_cons.
    destruct (leb x y) eqn:Hxy.
    + destruct (IH (n - 1) ltac:(lia)
                  (mkCursor (ci c + 1) (cj c) (ck c + 1) (P ++ x :: Q)) e0
                  (P ++ [x]) Q)
        as (c1 & e1 & c2 & e2 & c' & e' & d & Hl1 & Hl2 & Hl3 & Ha' & Hd & He');
        cbn [ci cj ck carr].
      * lia.
      * lia.
      * lia.
      * rewrite <- app_assoc. reflexivity.
      * rewrite length_app. cbn. lia.
      * cbn in HQ. lia.
      * exists c1, e1, c2, e2, c', e', d. cbn [ci cj] in *.
        rewrite Nat.add_1_r, Hy in *.
        split; [assumption|]. split; [assumption|]. split; [assumption|].
        split; [|split].
        -- rewrite Ha', <- app_assoc. cbn [app].
           replace n with (S (n - 1)) at 2 by lia. reflexivity.
        -- lia.
        -- change (S ?a) with (1 + a). replace d with (0 + d) by reflexivity.
           eapply effect_trans; eauto.
    + destruct (IH (n - 1) ltac:(lia)
                  (mkCursor (ci c) (cj c + 1) (ck c + 1) (P ++ y :: Q)) e0
                  (P ++ [y]) Q)
        as (c1 & e1 & c2 & e2 & c' & e' & d & Hl1 & Hl2 & Hl3 & Ha' & Hd & He');
        cbn [ci cj ck carr].
      * lia.
      * lia.
      * lia.
      * rewrite <- app_assoc. reflexivity.
      * rewrite length_app. cbn. lia.
      * cbn in HQ. lia.
      * exists c1, e1, c2, e2, c', e', d. cbn [ci cj] in *.
        rewrite Nat.add_1_r, Hx in *.
        split; [assumption|]. split; [assumption|]. split; [assumption|].
        split; [|split].
        -- rewrite Ha', <- app_assoc. cbn [app].
           replace n with (S (n - 1)) at 2 by lia. reflexivity.
        -- lia.
        -- change (S ?a) with (1 + a). replace d with (0 + d) by reflexivity.
           eapply effect_trans; eauto.
  - destruct (@drain_left_loop_spec la t (length la - ci c) c e P Q)
      as (c1 & e1 & Hl1 & Hj1 & Ha1 & Hk1 & He1); try assumption; try lia.
    destruct (@drain_right_loop_spec ra t (length ra - cj c) c1 e1
                (P ++ skipn (ci c) la) (skipn (length la - ci c) Q))
      as (c2 & e2 & Hl2 & Ha2 & He2);
      try assumption; try (rewrite ?length_skipn; lia).
    exists c, e, c1, e1, c2, e2, n.
    assert (Hz : ncmp (skipn (ci c) la) (skipn (cj c) ra) = 0
                 /\ merge_lists (skipn (ci c) la) (skipn (cj c) ra)
                    = skipn (ci c) la ++ skipn (cj c) ra).
    { apply andb_false_iff in Hc. destruct Hc as [Hc|Hc];
        apply Nat.ltb_ge in Hc.
      - rewrite (skipn_all2 la) by lia.
        rewrite ncmp_nil_l, merge_lists_nil_l. auto.
      - rewrite (skipn_all2 ra) by lia.
        rewrite ncmp_nil_r, merge_lists_nil_r, app_nil_r. auto. }
    destruct Hz as [Hz1 Hz2]. rewrite Hz1, Hz2.
    split; [reflexivity|]. split; [assumption|]. split; [assumption|].
    split; [|split].
    + rewrite Ha2, Hj1, skipn_skipn, <- !app_assoc.
      replace (length ra - cj c + (length la - ci c)) with n by lia.
      reflexivity.
    + lia.
    + replace n with ((length la - ci c) + (length ra - cj c)) by lia.
      change 0 with (0 + 0). eapply effect_trans; eauto.
Qed.

Lemma length_slice (l : list A) lo hi :
  hi <= length l -> length (slice l lo hi) = hi - lo.
Proof.
  intros H. unfold slice. rewrite length_skipn, length_firstn. lia.
Qed.

(** [_merge] on a range inside the array: the range receives the
    interleaving of its two halves and the rest of the array is kept. *)
Lemma _merge_spec arr lo mid hi t e :
  lo <= mid -> mid < hi -> hi < length arr ->
  let la := slice arr lo (mid + 1) in
  let ra := slice arr (mid + 1) (hi + 1) in
  let out := firstn lo arr ++ merge_lists la ra ++ skipn (hi + 1) arr in
  exists e' d,
    _merge arr lo mid hi t e = Ok (out, e') /\
    ncmp la ra + d = hi - lo + 1 /\
    effect t e e' (ncmp la ra) d /\
    (t = true -> exists T, steps e' = T ++ [MergeComplete out lo hi]).
Proof.
  intros Hlo Hmid Hhi la ra out.
  assert (Hla : length la = mid + 1 - lo) by (apply length_slice; lia).
  assert (Hra : length ra = hi - mid) by
    (unfold ra; rewrite length_slice; lia).
  set (e0 := track t (MergeStart arr lo mid hi la ra) e).
  destruct (@merge_loops_spec la ra t (hi - lo + 1) (mkCursor 0 0 lo arr) e0
              (firstn lo arr) (skipn lo arr))
    as (c1 & e1 & c2 & e2 & c' & e' & d & Hl1 & Hl2 & Hl3 & Ha & Hd & He);
    cbn [ci cj ck carr]; try lia.
  - symmetry. apply firstn_skipn.
  - rewrite length_firstn. lia.
  - rewrite length_skipn. lia.
  - cbn [ci cj skipn] in *.
    exists (track t (MergeComplete (carr c') lo hi) e'), d.
    unfold _merge. fold la ra e0. rewrite Hl1. cbn [bind].
    rewrite Hl2. cbn [bind]. rewrite Hl3. cbn [bind].
    assert (Hout : carr c' = out).
    { rewrite Ha, skipn_skipn. unfold out.
      replace (hi - lo + 1 + lo) with (hi + 1) by lia. reflexivity. }
    rewrite Hout. split; [reflexivity|]. split; [assumption|]. split.
    + replace (ncmp la ra) with (0 + (ncmp la ra + 0)) by lia.
      replace d with (0 + (d + 0)) by lia.
      apply effect_trans with (e2 := e0);
        [apply effect_track; reflexivity|].
      apply effect_trans with (e2 := e');
        [exact He|apply effect_track; reflexivity].
    + intros ->. cbn [track append_step steps]. eauto.
Qed.

(** ** The reference functions: length and contents *)

Lemma merge_lists_perm l r : Permutation (merge_lists l r) (l ++ r).
Proof.
  revert l r. apply merge_ind; intros.
  - rewrite merge_lists_nil_l. reflexivity.
  - rewrite merge_lists_nil_r, app_nil_r. reflexivity.
  - rewrite merge_lists_cons. destruct (leb x y).
    + cbn [app]. constructor. apply H. reflexivity.
    + etransitivity; [constructor; apply H0; reflexivity|].
      apply (Permutation_middle (x :: l) r y).
Qed.

Lemma half_bounds n : 2 <= n -> 1 <= half n < n /\ n - half n <= half n.
Proof.
  intros Hn. unfold half.
  assert (H1 : 2 * ((n - 1) / 2) <= n - 1)
    by (apply Nat.Div0.mul_div_le).
  assert (H2 : n - 1 < 2 * ((n - 1) / 2) + 2).
  { pose proof (Nat.div_mod_eq (n - 1) 2) as E.
    pose proof (Nat.mod_upper_bound (n - 1) 2 ltac:(lia)). lia. }
  lia.
Qed.

Lemma sort_list_perm l : Permutation (sort_list l) l.
Proof.
  remember (length l) as n eqn:Hn. revert l Hn.
  induction n as [n IH] using lt_wf_ind. intros l Hn.
  rewrite sort_list_eq. destruct (length l <=? 1) eqn:Hl; [reflexivity|].
  apply Nat.leb_gt in Hl.
  destruct (half_bounds (n := length l)) as [[Hh1 Hh2] _]; [lia|].
  rewrite merge_lists_perm.
  rewrite (IH (length (firstn (half (length l)) l))), 
          (IH (length (skipn (half (length l)) l))); try reflexivity.
  - rewrite firstn_skipn. reflexivity.
  - rewrite length_skipn. lia.
  - rewrite length_firstn. lia.
Qed.

Lemma sort_list_length l : length (sort_list l) = length l.
Proof. apply Permutation_length, sort_list_perm. Qed.

Lemma sort_list_not_nil l : 1 <= length l -> sort_list l <> [].
Proof.
  intros H E. rewrite <- sort_list_length, E in H. cbn [length] in H. lia.
Qed.

(** ** Ranges of an array written as [P ++ S ++ Z] *)

Lemma firstn_len_app (P X : list A) : firstn (length P) (P ++ X) = P.
Proof. induction P; cbn; congruence. Qed.

Lemma skipn_len_app (P X : list A) : skipn (length P) (P ++ X) = X.
Proof. induction P; cbn; congruence. Qed.

Lemma slice_mid (P S Z : list A) :
  slice (P ++ S ++ Z) (length P) (length P + length S) = S.
Proof.
  unfold slice. rewrite app_assoc, <- length_app, firstn_len_app.
  apply skipn_len_app.
Qed.

Lemma mid_split lo n : 1 <= n -> (lo + (lo + n - 1)) / 2 = lo + (n - 1) / 2.
Proof.
  intros Hn. replace (lo + (lo + n - 1)) with (lo * 2 + (n - 1)) by lia.
  apply Nat.div_add_l. lia.
Qed.

Lemma log2_up_half n : 2 <= n -> Nat.log2_up (half n) + 1 <= Nat.log2_up n.
Proof.
  intros Hn.
  destruct (Nat.log2_up_spec n ltac:(lia)) as [_ Hup].
  assert (Hk : 1 <= Nat.log2_up n).
  { apply Nat.log2_up_lt_pow2; [lia|]. cbn. lia. }
  remember (Nat.log2_up n) as k. destruct k as [|k]; [lia|].
  rewrite Nat.pow_succ_r' in Hup.
  assert (Hh : half n <= 2 ^ k).
  { unfold half.
    assert ((n - 1) / 2 < 2 ^ k)
      by (apply Nat.Div0.div_lt_upper_bound; lia).
    lia. }
  apply Nat.log2_up_le_pow2 in Hh; [lia|].
  unfold half. lia.
Qed.

Lemma _merge_split P L R Z t e :
  L <> [] -> R <> [] ->
  let lo := length P in
  let mid := length P + length L - 1 in
  let hi := length P + length L + length R - 1 in
  let out := P ++ merge_lists L R ++ Z in
  exists e' d,
    _merge (P ++ L ++ R ++ Z) lo mid hi t e = Ok (out, e') /\
    ncmp L R + d = length L + length R /\
    effect t e e' (ncmp L R) d /\
    (t = true -> exists T, steps e' = T ++ [MergeComplete out lo hi]).
Proof.
  intros HL HR lo mid hi out.
  assert (1 <= length L) by (destruct L; [congruence|cbn; lia]).
  assert (1 <= length R) by (destruct R; [congruence|cbn; lia]).
  destruct (@_merge_spec (P ++ L ++ R ++ Z) lo mid hi t e)
    as (e' & d & Hm & Hd & He & Hlast).
  - unfold lo, mid. lia.
  - unfold mid, hi. lia.
  - rewrite !length_app. unfold hi. lia.
  - assert (Hla : slice (P ++ L ++ R ++ Z) lo (mid + 1) = L).
    { replace (mid + 1) with (length P + length L) by (unfold mid; lia).
      apply slice_mid. }
    assert (Hra : slice (P ++ L ++ R ++ Z) (mid + 1) (hi + 1) = R).
    { replace (mid + 1) with (length (P ++ L))
        by (rewrite length_app; unfold mid; lia).
      replace (hi + 1) with (length (P ++ L) + length R)
        by (rewrite length_app; unfold hi; lia).
      rewrite (app_assoc P L). apply slice_mid. }
    assert (Hz : skipn (hi + 1) (P ++ L ++ R ++ Z) = Z).
    { replace (hi + 1) with (length (P ++ L ++ R))
        by (rewrite !length_app; unfold hi; lia).
      rewrite (app_assoc L R Z), (app_assoc P (L ++ R) Z).
      apply skipn_len_app. }
    rewrite Hla, Hra, Hz in *. unfold lo in Hm, Hlast at 1.
    rewrite firstn_len_app in *. fold lo in Hm.
    exists e', d. repeat split; auto.
    unfold hi, lo in Hd. lia.
Qed.

(** [_merge_sort_recursive] on a non-empty range [S] of the array
    [P ++ S ++ Z]: the range is replaced by [sort_list S]. *)
Lemma _merge_sort_recursive_spec t :
  forall n P S Z e,
    n = length S -> 1 <= n ->
    let lo := length P in
    let hi := length P + length S - 1 in
    let out := P ++ sort_list S ++ Z in
    exists e' c d,
      _merge_sort_recursive (P ++ S ++ Z) lo hi t e = Ok (out, e') /\
      effect t e e' c d /\
      c <= n * Nat.log2_up n /\
      (2 <= n -> 1 <= c) /\
      (2 <= n -> t = true ->
       exists T, steps e' = T ++ [MergeComplete out lo hi]).
Proof.
  induction n as [n IH] using lt_wf_ind.
  intros P S Z e Hn Hn1 lo hi out.
  rewrite _merge_sort_recursive_eq.
  destruct (hi <=? lo) eqn:Hb.
  - apply Nat.leb_le in Hb. assert (n = 1) by (unfold hi, lo in Hb; lia).
    exists e, 0, 0. unfold out. rewrite sort_list_eq.
    replace (length S <=? 1) with true by (symmetry; apply Nat.leb_le; lia).
    repeat split; auto using effect_refl; try lia.
  - apply Nat.leb_gt in Hb. assert (Hn2 : 2 <= n) by (unfold hi, lo in Hb; lia).
    destruct (half_bounds Hn2) as [[Hh1 Hh2] Hh3].
    pose proof (log2_up_half Hn2) as Hlog.
    set (h := half n) in *.
    set (L := firstn h S). set (R := skipn h S).
    assert (HS : S = L ++ R) by (symmetry; apply firstn_skipn).
    assert (HlL : length L = h) by (unfold L; rewrite length_firstn; lia).
    assert (HlR : length R = n - h) by (unfold R; rewrite length_skipn; lia).
    assert (Hmid : (lo + hi) / 2 = lo + length L - 1).
    { unfold hi. rewrite <- Hn. fold lo. rewrite mid_split by lia.
      rewrite HlL. unfold h, half. lia. }
    cbv zeta. rewrite Hmid.
    set (e0 := track t (Divide (P ++ S ++ Z) lo hi (lo + length L - 1)) e).
    (* left half *)
    destruct (IH h ltac:(lia) P L (R ++ Z) e0 ltac:(lia) ltac:(lia))
      as (e1 & c1 & d1 & Hr1 & He1 & Hc1 & _ & _).
    cbv zeta in Hr1. fold lo in Hr1.
    replace (P ++ S ++ Z) with (P ++ L ++ R ++ Z)
      by (rewrite HS, <- app_assoc; reflexivity).
    rewrite Hr1. cbn [bind].
    (* right half *)
    destruct (IH (n - h) ltac:(lia) (P ++ sort_list L) R Z e1
                ltac:(lia) ltac:(lia))
      as (e2 & c2 & d2 & Hr2 & He2 & Hc2 & _ & _).
    cbv zeta in Hr2.
    rewrite length_app, sort_list_length in Hr2.
    rewrite <- !app_assoc in Hr2.
    replace (lo + length L - 1 + 1) with (length P + length L)
      by (unfold lo; lia).
    replace hi with (length P + length L + length R - 1)
      by (unfold hi; lia).
    rewrite Hr2. cbn [bind].
    (* merge *)
    destruct (@_merge_split P (sort_list L) (sort_list R) Z t e2)
      as (e3 & d3 & Hr3 & Hd3 & He3 & Hlast3).
    { apply sort_list_not_nil. lia. }
    { apply sort_list_not_nil. lia. }
    cbv zeta in Hr3, Hlast3. rewrite !sort_list_length in Hr3, Hlast3, Hd3.
    fold lo in Hr3, Hlast3 |- *. rewrite Hr3.
    assert (Hout : P ++ merge_lists (sort_list L) (sort_list R) ++ Z = out).
    { unfold out. rewrite (sort_list_eq S).
      replace (length S <=? 1) with false
        by (symmetry; apply Nat.leb_gt; lia).
      rewrite <- Hn. reflexivity. }
    rewrite Hout in *.
    exists e3, (c1 + c2 + ncmp (sort_list L) (sort_list R)), (d1 + d2 + d3).
    split; [reflexivity|]. split; [|split; [|split]].
    + replace (c1 + c2 + ncmp (sort_list L) (sort_list R))
        with (0 + (c1 + (c2 + ncmp (sort_list L) (sort_list R)))) by lia.
      replace (d1 + d2 + d3) with (0 + (d1 + (d2 + d3))) by lia.
      apply effect_trans with (e2 := e0); [apply effect_track; reflexivity|].
      apply effect_trans with (e2 := e1); [exact He1|].
      apply effect_trans with (e2 := e2); [exact He2|exact He3].
    + assert (Nat.log2_up (n - h) <= Nat.log2_up h)
        by (apply Nat.log2_up_le_mono; lia).
      nia.
    + intros _.
      assert (1 <= ncmp (sort_list L) (sort_list R)); [|lia].
      apply ncmp_pos; apply sort_list_not_nil; lia.
    + intros _ Ht. apply Hlast3, Ht.
Qed.

(** [merge_sort]: the result is [sort_list arr]; the engine is reset first
    when tracking. *)
Lemma merge_sort_spec (arr : list A) (t : bool) (e : Engine) :
  let e0 := if t then mkEngine [] 0 0 else e in
  let n := length arr in
  exists e' c d,
    merge_sort arr t e = Ok (sort_list arr, e') /\
    effect t e0 e' c d /\
    c <= n * Nat.log2_up n /\
    (2 <= n -> 1 <= c) /\
    (n <= 1 -> e' = e0) /\
    (2 <= n -> t = true ->
     exists T, steps e' = T ++ [MergeComplete (sort_list arr) 0 (n - 1)]).
Proof.
  intros e0 n. unfold merge_sort. fold e0. fold n.
  destruct (n <=? 1) eqn:Hn.
  - apply Nat.leb_le in Hn. exists e0, 0, 0.
    rewrite sort_list_eq. fold n.
    replace (n <=? 1) with true by (symmetry; apply Nat.leb_le; lia).
    repeat split; auto using effect_refl; lia.
  - apply Nat.leb_gt in Hn.
    destruct (@_merge_sort_recursive_spec t n [] arr [] e0 eq_refl ltac:(lia))
      as (e' & c & d & Hr & He & Hc & Hpos & Hlast).
    cbn [app length Nat.add] in Hr, Hlast. rewrite !app_nil_r in Hr, Hlast.
    fold n in Hr, Hlast. rewrite Hr, app_nil_r.
    exists e', c, d. repeat split; auto. intros H. exfalso. lia.
Qed.

(** ** Order and stability of the reference functions *)

Section Order.

Hypothesis leb_total : forall x y, leb x y = true \/ leb y x = true.

Lemma merge_lists_hd a l r :
  HdRel le a l -> HdRel le a r -> HdRel le a (merge_lists l r).
Proof.
  intros Hl Hr. destruct l as [|x l].
  - rewrite merge_lists_nil_l. exact Hr.
  - destruct r as [|y r].
    + rewrite merge_lists_nil_r. exact Hl.
    + rewrite merge_lists_cons. inversion Hl; inversion Hr; subst.
      destruct (leb x y); constructor; assumption.
Qed.

Lemma merge_lists_sorted l r :
  Sorted le l -> Sorted le r -> Sorted le (merge_lists l r).
Proof.
  merge_induction l r.
  - rewrite merge_lists_nil_l. assumption.
  - rewrite merge_lists_nil_r. assumption.
  - rewrite merge_lists_cons. destruct (leb x y) eqn:Hxy.
    + inversion H1; subst. constructor.
      * apply H; auto.
      * apply merge_lists_hd; auto.
    + inversion H2; subst. constructor.
      * apply H0; auto.
      * apply merge_lists_hd; auto. constructor.
        destruct (leb_total x y) as [E|E]; [congruence|exact E].
Qed.

Lemma sort_list_sorted l : Sorted le (sort_list l).
Proof.
  remember (length l) as n eqn:Hn. revert l Hn.
  induction n as [n IH] using lt_wf_ind. intros l Hn.
  rewrite sort_list_eq. destruct (length l <=? 1) eqn:Hl.
  - apply Nat.leb_le in Hl. destruct l as [|a [|b l]]; cbn in Hl.
    + constructor.
    + repeat constructor.
    + lia.
  - apply Nat.leb_gt in Hl.
    destruct (half_bounds (n := length l)) as [[Hh1 Hh2] _]; [lia|].
    apply merge_lists_sorted.
    + apply (IH (length (firstn (half (length l)) l))); auto.
      rewrite length_firstn. lia.
    + apply (IH (length (skipn (half (length l)) l))); auto.
      rewrite length_skipn. lia.
Qed.

Hypothesis leb_trans :
  forall x y z, leb x y = true -> leb y z = true -> leb x z = true.

Lemma filter_none (f : A -> bool) l :
  Forall (fun z => f z = false) l -> filter f l = [].
Proof.
  induction 1 as [|z l Hz _ IH]; cbn; [reflexivity|]. rewrite Hz. exact IH.
Qed.

Lemma filter_cons_if (f : A -> bool) x l :
  filter f (x :: l) = if f x then x :: filter f l else filter f l.
Proof. reflexivity. Qed.

Lemma merge_lists_stable a l r :
  Sorted le l -> Sorted le r ->
  filter (same_key a) (merge_lists l r)
  = filter (same_key a) l ++ filter (same_key a) r.
Proof.
  merge_induction l r.
  - rewrite merge_lists_nil_l. reflexivity.
  - rewrite merge_lists_nil_r, app_nil_r. reflexivity.
  - rewrite merge_lists_cons. destruct (leb x y) eqn:Hxy.
    + inversion H1; subst. cbn [filter]. rewrite H by auto.
      destruct (same_key a x); reflexivity.
    + inversion H2; subst.
      rewrite (filter_cons_if _ y (merge_lists _ _)), (filter_cons_if _ y r).
      rewrite H0 by auto.
      destruct (same_key a y) eqn:Hay; [|reflexivity].
      assert (Hnone : filter (same_key a) (x :: l) = []).
      { apply filter_none.
        assert (Hx : Forall (le x) (x :: l)).
        { constructor.
          - destruct (leb_total x x); assumption.
          - apply Sorted_extends; [|assumption].
            intros u v w; apply leb_trans. }
        eapply Forall_impl; [|exact Hx]. cbn. intros z Hz.
        unfold same_key in *. apply andb_true_iff in Hay.
        destruct Hay as [Hay _].
        destruct (leb z a) eqn:Hza; [|apply andb_false_r].
        exfalso. assert (leb x y = true); [|congruence].
        apply leb_trans with z; [exact Hz|].
        apply leb_trans with a; assumption. }
      rewrite Hnone. reflexivity.
Qed.

Lemma sort_list_stable a l :
  filter (same_key a) (sort_list l) = filter (same_key a) l.
Proof.
  remember (length l) as n eqn:Hn. revert l Hn.
  induction n as [n IH] using lt_wf_ind. intros l Hn.
  rewrite sort_list_eq. destruct (length l <=? 1) eqn:Hl; [reflexivity|].
  apply Nat.leb_gt in Hl.
  destruct (half_bounds (n := length l)) as [[Hh1 Hh2] _]; [lia|].
  rewrite merge_lists_stable by apply sort_list_sorted.
  rewrite (IH (length (firstn (half (length l)) l))),
          (IH (length (skipn (half (length l)) l))); try reflexivity.
  - rewrite <- filter_app, firstn_skipn. reflexivity.
  - rewrite length_skipn. lia.
  - rewrite length_firstn. lia.
Qed.

End Order.

Lemma merge_sort_ref_eq h p t e :
  merge_sort_ref h p t e =
  '(out, e') <- merge_sort (load h p) t e ;;
  if length (load h p) <=? 1 then Ok (p, h, e')
  else Ok (next h,
           store (snd (alloc h (load h p))) (next h) out, e').
Proof.
  unfold merge_sort_ref, merge_sort.
  destruct (length (load h p) <=? 1) eqn:Hl.
  - reflexivity.
  - unfold alloc, load. cbn [objs next snd]. rewrite Nat.eqb_refl.
    destruct (p =? next h); reflexivity.
Qed.

(** ** Counters in one iteration *)

Lemma compare_body_counters la ra t c e c' e' :
  compare_body la ra t c e = Ok (c', e') ->
  comparisons e' = comparisons e + 1 /\
  array_accesses e' = array_accesses e + 2 + 1.
Proof.
  unfold compare_body. intros H.
  destruct (get la (ci c)) as [x|]; [|discriminate].
  destruct (get ra (cj c)) as [y|]; [|discriminate].
  cbn [bind] in H.
  destruct (leb x y);
    destruct (set (carr c) (ck c) _) as [arr|]; try discriminate;
    cbn [bind] in H; injection H as _ <-; destruct t; cbn; auto.
Qed.

Lemma drain_left_body_counters la t c e c' e' :
  drain_left_body la t c e = Ok (c', e') ->
  comparisons e' = comparisons e /\
  array_accesses e' = array_accesses e + 1.
Proof.
  unfold drain_left_body. intros H.
  destruct (get la (ci c)) as [x|]; [|discriminate].
  cbn [bind] in H.
  destruct (set (carr c) (ck c) _) as [arr|]; try discriminate.
  cbn [bind] in H. injection H as _ <-. destruct t; cbn; auto.
Qed.

Lemma drain_right_body_counters ra t c e c' e' :
  drain_right_body ra t c e = Ok (c', e') ->
  comparisons e' = comparisons e /\
  array_accesses e' = array_accesses e + 1.
Proof.
  unfold drain_right_body. intros H.
  destruct (get ra (cj c)) as [y|]; [|discriminate].
  cbn [bind] in H.
  destruct (set (carr c) (ck c) _) as [arr|]; try discriminate.
  cbn [bind] in H. injection H as _ <-. destruct t; cbn; auto.
Qed.

(** Which buffer an iteration of the comparing loop takes from. *)
Lemma compare_body_choice la ra t c e c' e' :
  compare_body la ra t c e = Ok (c', e') ->
  exists x y,
    get la (ci c) = Ok x /\ get ra (cj c) = Ok y /\
    if leb x y
    then ci c' = ci c + 1 /\ cj c' = cj c /\
         set (carr c) (ck c) x = Ok (carr c')
    else ci c' = ci c /\ cj c' = cj c + 1 /\
         set (carr c) (ck c) y = Ok (carr c').
Proof.
  unfold compare_body. intros H.
  destruct (get la (ci c)) as [x|]; [|discriminate].
  destruct (get ra (cj c)) as [y|]; [|discriminate].
  cbn [bind] in H. exists x, y. split; [reflexivity|]. split; [reflexivity|].
  destruct (leb x y);
    destruct (set (carr c) (ck c) _) as [arr|]; try discriminate;
    cbn [bind] in H; injection H as <- _; cbn; auto.
Qed.

(** * The claims *)

(** C1. For every input list over a total [<=], [merge_sort] returns a list
    of the same length that is a permutation of the input (same multiset of
    elements) and is in non-descending order. *)
Theorem merge_sort_sorted_permutation :
  (forall x y, leb x y = true \/ leb y x = true) ->
  forall (arr : list A) (track_steps : bool) (e : Engine),
  exists out e',
    merge_sort arr track_steps e = Ok (out, e') /\
    length out = length arr /\
    Permutation arr out /\
    Sorted le out.
Proof.
  intros Htot arr t e.
  destruct (merge_sort_spec arr t e) as (e' & c & d & Hr & _).
  exists (sort_list arr), e'. split; [exact Hr|]. split; [|split].
  - apply sort_list_length.
  - symmetry. apply sort_list_perm.
  - apply sort_list_sorted. exact Htot.
Qed.

(** What an untracked sort does to the engine: the trace is left exactly as
    it was; the counters grow by the number [c] of comparisons made and by
    [3 * c + d] for the [d] drain copies, and keep their values only for
    inputs of at most one element. *)
Lemma untracked_sort_keeps_trace :
  forall (arr : list A) (e : Engine),
  exists out e' c d,
    merge_sort arr false e = Ok (out, e') /\
    steps e' = steps e /\
    comparisons e' = comparisons e + c /\
    array_accesses e' = array_accesses e + 3 * c + d /\
    (length arr <= 1 -> e' = e) /\
    (2 <= length arr -> 1 <= c).
Proof.
  intros arr e.
  destruct (merge_sort_spec arr false e)
    as (e' & c & d & Hr & (T & Hs & _ & HT & Hc & Ha) & _ & Hpos & Hsmall & _).
  cbv zeta in *. subst T. rewrite app_nil_r in Hs.
  exists (sort_list arr), e', c, d. repeat split; auto.
Qed.

(** C3. [merge_sort] is stable: for a total and transitive [<=] and every
    element [x], the elements of the output that compare equal to [x] are,
    in the same order, the elements of the input that compare equal to [x]
    (so elements carrying their input position as a tag that [<=] ignores
    keep their relative order).  An iteration of the comparing loop takes
    from the left buffer exactly when [left_arr[i] <= right_arr[j]], and
    from the right buffer otherwise. *)
Theorem merge_sort_stable :
  (forall x y, leb x y = true \/ leb y x = true) ->
  (forall x y z, leb x y = true -> leb y z = true -> leb x z = true) ->
  (forall (arr : list A) (track_steps : bool) (e : Engine),
   exists out e',
     merge_sort arr track_steps e = Ok (out, e') /\
     forall x, filter (same_key x) out = filter (same_key x) arr) /\
  (forall left_arr right_arr track_steps c e c' e',
   compare_body left_arr right_arr track_steps c e = Ok (c', e') ->
   exists x y,
     get left_arr (ci c) = Ok x /\ get right_arr (cj c) = Ok y /\
     if leb x y
     then ci c' = ci c + 1 /\ cj c' = cj c /\
          set (carr c) (ck c) x = Ok (carr c')
     else ci c' = ci c /\ cj c' = cj c + 1 /\
          set (carr c) (ck c) y = Ok (carr c')).
Proof.
  intros Htot Htrans. split.
  - intros arr t e.
    destruct (merge_sort_spec arr t e) as (e' & c & d & Hr & _).
    exists (sort_list arr), e'. split; [exact Hr|].
    intros x. apply sort_list_stable; assumption.
  - apply compare_body_choice.
Qed.

(** C4. The caller's list is unchanged by [merge_sort], with either value of
    the flag: after the call the object [p] that was passed, and every other
    object that existed before the call, holds the value it held before, and
    the returned reference holds the result. *)
Theorem merge_sort_ref_keeps_input :
  forall (h : Heap) (p : nat) (track_steps : bool) (e : Engine),
  p < next h ->
  exists q h' out e',
    merge_sort_ref h p track_steps e = Ok (q, h', e') /\
    merge_sort (load h p) track_steps e = Ok (out, e') /\
    load h' q = out /\
    load h' p = load h p /\
    (forall p', p' < next h -> load h' p' = load h p').
Proof.
  intros h p t e Hp. rewrite merge_sort_ref_eq.
  destruct (merge_sort_spec (load h p) t e)
    as (e' & c & d & Hr & _ & _ & _ & Hsmall & _).
  rewrite Hr. cbn [bind].
  destruct (length (load h p) <=? 1) eqn:Hl.
  - exists p, h, (sort_list (load h p)), e'.
    repeat split; auto. rewrite sort_list_eq, Hl. reflexivity.
  - exists (next h), (store (snd (alloc h (load h p))) (next h)
                       (sort_list (load h p))), (sort_list (load h p)), e'.
    assert (Hold : forall p', p' < next h ->
              load (store (snd (alloc h (load h p))) (next h)
                      (sort_list (load h p))) p' = load h p').
    { intros p' Hp'. unfold load, store, alloc. cbn [objs snd].
      replace (p' =? next h) with false
        by (symmetry; apply Nat.eqb_neq; lia).
      reflexivity. }
    repeat split; auto.
    unfold load, store. cbn [objs]. rewrite Nat.eqb_refl. reflexivity.
Qed.

(** C5. In [_merge], an iteration of the comparing loop adds exactly 1 to
    the comparison counter and exactly 2 + 1 to the access counter (2 for the
    comparison, 1 for the placement); an iteration of a draining loop adds
    exactly 1 to the access counter and nothing to the comparison counter.
    Over a whole merge of a range inside the array with [c] comparisons and
    [d] drain copies, [c + d] is the size of the range, the counters grow by
    [c] and by [3 * c + d], and when tracking exactly [c] MergeStep and [d]
    MergeRemaining records are appended. *)
Theorem merge_counter_increments :
  (forall left_arr right_arr track_steps c e c' e',
   compare_body left_arr right_arr track_steps c e = Ok (c', e') ->
   comparisons e' = comparisons e + 1 /\
   array_accesses e' = array_accesses e + 2 + 1) /\
  (forall left_arr track_steps c e c' e',
   drain_left_body left_arr track_steps c e = Ok (c', e') ->
   comparisons e' = comparisons e /\
   array_accesses e' = array_accesses e + 1) /\
  (forall right_arr track_steps c e c' e',
   drain_right_body right_arr track_steps c e = Ok (c', e') ->
   comparisons e' = comparisons e /\
   array_accesses e' = array_accesses e + 1) /\
  (forall arr lo mid hi track_steps e,
   lo <= mid -> mid < hi -> hi < length arr ->
   exists out e' c d T,
     _merge arr lo mid hi track_steps e = Ok (out, e') /\
     c + d = hi - lo + 1 /\
     comparisons e' = comparisons e + c /\
     array_accesses e' = array_accesses e + 3 * c + d /\
     steps e' = steps e ++ T /\
     if track_steps
     then count is_merge_step T = c /\ count is_merge_remaining T = d
     else T = []).
Proof.
  split; [|split; [|split]].
  - apply compare_body_counters.
  - apply drain_left_body_counters.
  - apply drain_right_body_counters.
  - intros arr lo mid hi t e Hlo Hmid Hhi.
    destruct (@_merge_spec arr lo mid hi t e Hlo Hmid Hhi)
      as (e' & d & Hr & Hd & (T & Hs & _ & HT & Hc & Ha) & _).
    eexists _, e', _, d, T. split; [exact Hr|].
    split; [exact Hd|]. split; [exact Hc|]. split; [exact Ha|].
    split; [exact Hs|exact HT].
Qed.

(** C6. After a tracked sort of a list of at least two elements, the last
    record of the trace is the MergeComplete record of the full range
    [0 .. n-1], and its array snapshot is the list that [merge_sort]
    returns. *)
Theorem final_snapshot_is_result :
  forall (arr : list A) (e : Engine),
  2 <= length arr ->
  exists out e' T,
    merge_sort arr true e = Ok (out, e') /\
    steps e' = T ++ [MergeComplete out 0 (length arr - 1)].
Proof.
  intros arr e Hn.
  destruct (merge_sort_spec arr true e)
    as (e' & c & d & Hr & _ & _ & _ & _ & Hlast).
  destruct (Hlast Hn eq_refl) as [T HT].
  exists (sort_list arr), e', T. split; assumption.
Qed.

(** C7. A tracked sort of a list of length 0 or 1 returns the input list,
    and leaves the trace empty and both counters at 0. *)
Theorem short_input_untouched :
  forall (arr : list A) (e : Engine),
  length arr <= 1 ->
  merge_sort arr true e = Ok (arr, mkEngine [] 0 0).
Proof.
  intros arr e Hn. unfold merge_sort.
  replace (length arr <=? 1) with true by (symmetry; apply Nat.leb_le; lia).
  reflexivity.
Qed.

(** C8. [merge_sort] is total: each recursive call of
    [_merge_sort_recursive] is on a strictly smaller range, every call of
    [merge_sort] returns a list (no IndexError is raised), and the number of
    comparisons counted during the call is at most [n * ceil(log2 n)] for
    [n] elements. *)
Theorem merge_sort_total_nlogn :
  (forall lo hi, lo < hi ->
   let mid := (lo + hi) / 2 in
   mid - lo < hi - lo /\ hi - (mid + 1) < hi - lo) /\
  (forall (arr : list A) (track_steps : bool) (e : Engine),
   exists out e' c,
     merge_sort arr track_steps e = Ok (out, e') /\
     comparisons e' =
       (if track_steps then 0 else comparisons e) + c /\
     c <= length arr * Nat.log2_up (length arr)).
Proof.
  split.
  - intros lo hi Hlt mid. pose proof (mid_bounds Hlt). fold mid in H. lia.
  - intros arr t e.
    destruct (merge_sort_spec arr t e)
      as (e' & c & d & Hr & (T & _ & _ & _ & Hc & _) & Hb & _).
    exists (sort_list arr), e', c. split; [exact Hr|]. split; [|exact Hb].
    rewrite Hc. destruct t; reflexivity.
Qed.

(** C9. The flag does not influence the result: on the same input,
    [merge_sort] with [track_steps = True] and with [track_steps = False]
    return the same list, whatever the engine states. *)
Theorem track_flag_irrelevant :
  forall (arr : list A) (e1 e2 : Engine),
  exists out e1' e2',
    merge_sort arr true e1 = Ok (out, e1') /\
    merge_sort arr false e2 = Ok (out, e2').
Proof.
  intros arr e1 e2.
  destruct (merge_sort_spec arr true e1) as (e1' & c1 & d1 & Hr1 & _).
  destruct (merge_sort_spec arr false e2) as (e2' & c2 & d2 & Hr2 & _).
  exists (sort_list arr), e1', e2'. split; assumption.
Qed.

(** C10. Every MergeStep record in the trace of a tracked sort is
    consistent: its chosen value is the left compared value when
    [left <= right] and the right compared value otherwise, and its array
    snapshot, taken after the placement, holds the chosen value at the
    recorded position. *)
Theorem merge_steps_consistent :
  forall (arr : list A) (e : Engine),
  exists out e',
    merge_sort arr true e = Ok (out, e') /\
    forall array x y chosen position,
      In (MergeStep array (x, y) chosen position) (steps e') ->
      chosen = (if leb x y then x else y) /\
      nth_error array position = Some chosen.
Proof.
  intros arr e.
  destruct (merge_sort_spec arr true e)
    as (e' & c & d & Hr & (T & Hs & HT & _) & _).
  exists (sort_list arr), e'. split; [exact Hr|].
  intros array x y chosen position Hin.
  cbn [steps app] in Hs. rewrite Hs in Hin.
  rewrite Forall_forall in HT. apply (HT _ Hin).
Qed.

(** * Further properties of the engine *)

Lemma set_ok_inv l k v l' :
  set l k v = Ok l' ->
  k < length l /\ length l' = length l /\ nth_error l' k = Some v.
Proof.
  revert k l'. induction l as [|a l IH]; intros k l' H; cbn [set] in H.
  - discriminate.
  - destruct k as [|k].
    + injection H as <-. cbn. repeat split; auto. lia.
    + destruct (set l k v) as [t'|] eqn:Hs; [|discriminate].
      cbn [bind] in H. injection H as <-.
      destruct (IH _ _ Hs) as (H1 & H2 & H3). cbn. repeat split; auto. lia.
Qed.

Lemma trace_shape_app ref t T1 T2 nd1 ns1 nc1 p1 nd2 ns2 nc2 p2 :
  trace_shape ref t T1 nd1 ns1 nc1 p1 ->
  trace_shape ref t T2 nd2 ns2 nc2 p2 ->
  trace_shape ref t (T1 ++ T2) (nd1 + nd2) (ns1 + ns2) (nc1 + nc2) (p1 + p2).
Proof.
  intros (Hb1 & Hs1 & Hc1) (Hb2 & Hs2 & Hc2).
  split; [apply Forall_app; auto|]. split; [apply Forall_app; auto|].
  destruct t.
  - rewrite !count_app. lia.
  - rewrite Hc1, Hc2. reflexivity.
Qed.

Lemma grows_refl ref t e : grows ref t e e 0 0 0 0.
Proof.
  exists []. rewrite app_nil_r. split; [reflexivity|].
  split; [constructor|]. split; [constructor|].
  destruct t; cbn; auto.
Qed.

Lemma grows_trans ref t e1 e2 e3 nd1 ns1 nc1 p1 nd2 ns2 nc2 p2 :
  grows ref t e1 e2 nd1 ns1 nc1 p1 ->
  grows ref t e2 e3 nd2 ns2 nc2 p2 ->
  grows ref t e1 e3 (nd1 + nd2) (ns1 + ns2) (nc1 + nc2) (p1 + p2).
Proof.
  intros (T1 & E1 & H1) (T2 & E2 & H2). exists (T1 ++ T2). split.
  - rewrite E2, E1, app_assoc. reflexivity.
  - apply trace_shape_app; assumption.
Qed.

Lemma grows_track ref t s e :
  step_in_bounds (length ref) s -> step_settled ref s ->
  grows ref t e (track t s e)
    (b2n (is_divide s)) (b2n (is_merge_start s)) (b2n (is_merge_complete s))
    (b2n (is_merge_step s) + b2n (is_merge_remaining s)).
Proof.
  intros Hb Hs. destruct t; cbn [track].
  - exists [s]. split; [reflexivity|].
    split; [constructor; [assumption|constructor]|].
    split; [constructor; [assumption|constructor]|].
    unfold count. cbn [filter].
    destruct s; cbn; auto.
  - exists []. rewrite app_nil_r. split; [reflexivity|].
    split; [constructor|]. split; [constructor|]. reflexivity.
Qed.

Lemma grows_add_accesses ref t e e' k nd ns nc p :
  grows ref t e e' nd ns nc p -> grows ref t e (add_accesses k e') nd ns nc p.
Proof. intros (T & E & H). exists T. split; assumption. Qed.

Lemma compare_body_grows ref la ra t c e c' e' :
  compare_body la ra t c e = Ok (c', e') ->
  length (carr c) = length ref ->
  length (carr c') = length ref /\ grows ref t e e' 0 0 0 1.
Proof.
  unfold compare_body. intros H Hlen.
  destruct (get la (ci c)) as [x|]; [|discriminate].
  destruct (get ra (cj c)) as [y|]; [|discriminate].
  cbn [bind] in H.
  destruct (leb x y);
    destruct (set (carr c) (ck c) _) as [arr|] eqn:Hset; try discriminate;
    cbn [bind] in H; injection H as <- <-;
    destruct (set_ok_inv _ _ _ Hset) as (Hk & Hl & Hn);
    (split; [cbn; lia|]);
    apply grows_add_accesses;
    match goal with
    | |- grows _ _ _ (track _ ?s _) _ _ _ _ =>
        destruct (@grows_track ref t s (add_accesses 2 (add_comparisons 1 e)))
          as (T & E & HT);
          [unfold step_in_bounds; cbn [snapshot]; split; lia|exact I|];
        exists T; split; [exact E|exact HT]
    end.
Qed.

Lemma drain_left_body_grows ref la t c e c' e' :
  drain_left_body la t c e = Ok (c', e') ->
  length (carr c) = length ref ->
  length (carr c') = length ref /\ grows ref t e e' 0 0 0 1.
Proof.
  unfold drain_left_body. intros H Hlen.
  destruct (get la (ci c)) as [x|]; [|discriminate].
  cbn [bind] in H.
  destruct (set (carr c) (ck c) _) as [arr|] eqn:Hset; try discriminate.
  cbn [bind] in H. injection H as <- <-.
  destruct (set_ok_inv _ _ _ Hset) as (Hk & Hl & Hn).
  split; [cbn; lia|]. apply grows_add_accesses.
  apply (@grows_track ref t (MergeRemaining arr x (ck c)) e);
    [unfold step_in_bounds; cbn [snapshot]; repeat split; auto; lia|exact I].
Qed.

Lemma drain_right_body_grows ref ra t c e c' e' :
  drain_right_body ra t c e = Ok (c', e') ->
  length (carr c) = length ref ->
  length (carr c') = length ref /\ grows ref t e e' 0 0 0 1.
Proof.
  unfold drain_right_body. intros H Hlen.
  destruct (get ra (cj c)) as [y|]; [|discriminate].
  cbn [bind] in H.
  destruct (set (carr c) (ck c) _) as [arr|] eqn:Hset; try discriminate.
  cbn [bind] in H. injection H as <- <-.
  destruct (set_ok_inv _ _ _ Hset) as (Hk & Hl & Hn).
  split; [cbn; lia|]. apply grows_add_accesses.
  apply (@grows_track ref t (MergeRemaining arr y (ck c)) e);
    [unfold step_in_bounds; cbn [snapshot]; repeat split; auto; lia|exact I].
Qed.

Lemma compare_loop_grows ref la ra t :
  forall m c e c' e',
    (length la - ci c) + (length ra - cj c) = m ->
    compare_loop la ra t c e = Ok (c', e') ->
    length (carr c) = length ref ->
    length (carr c') = length ref /\ exists p, grows ref t e e' 0 0 0 p.
Proof.
  induction m as [m IH] using lt_wf_ind. intros c e c' e' Hm H Hlen.
  rewrite compare_loop_eq in H.
  destruct ((ci c <? length la) && (cj c <? length ra)) eqn:Hc.
  - destruct (compare_body la ra t c e) as [[c1 e1]|] eqn:Hb;
      cbn [bind] in H; [|discriminate].
    destruct (compare_body_grows ref _ _ _ _ _ Hb Hlen) as [Hl1 Hg1].
    pose proof (compare_body_measure _ _ _ _ _ Hc Hb) as Hdec.
    destruct (IH ((length la - ci c1) + (length ra - cj c1)) ltac:(lia)
                c1 e1 c' e' eq_refl H Hl1) as [Hl' [p Hg']].
    split; [exact Hl'|]. exists (1 + p). exact (grows_trans Hg1 Hg').
  - injection H as <- <-. split; [exact Hlen|]. exists 0. apply grows_refl.
Qed.

Lemma drain_left_loop_grows ref la t :
  forall m c e c' e',
    length la - ci c = m ->
    drain_left_loop la t c e = Ok (c', e') ->
    length (carr c) = length ref ->
    length (carr c') = length ref /\ exists p, grows ref t e e' 0 0 0 p.
Proof.
  induction m as [m IH] using lt_wf_ind. intros c e c' e' Hm H Hlen.
  rewrite drain_left_loop_eq in H.
  destruct (ci c <? length la) eqn:Hc.
  - destruct (drain_left_body la t c e) as [[c1 e1]|] eqn:Hb;
      cbn [bind] in H; [|discriminate].
    destruct (drain_left_body_grows ref _ _ _ _ Hb Hlen) as [Hl1 Hg1].
    pose proof (drain_left_body_measure _ _ _ _ Hc Hb) as Hdec.
    destruct (IH (length la - ci c1) ltac:(lia)
                c1 e1 c' e' eq_refl H Hl1) as [Hl' [p Hg']].
    split; [exact Hl'|]. exists (1 + p). exact (grows_trans Hg1 Hg').
  - injection H as <- <-. split; [exact Hlen|]. exists 0. apply grows_refl.
Qed.

Lemma drain_right_loop_grows ref ra t :
  forall m c e c' e',
    length ra - cj c = m ->
    drain_right_loop ra t c e = Ok (c', e') ->
    length (carr c) = length ref ->
    length (carr c') = length ref /\ exists p, grows ref t e e' 0 0 0 p.
Proof.
  induction m as [m IH] using lt_wf_ind. intros c e c' e' Hm H Hlen.
  rewrite drain_right_loop_eq in H.
  destruct (cj c <? length ra) eqn:Hc.
  - destruct (drain_right_body ra t c e) as [[c1 e1]|] eqn:Hb;
      cbn [bind] in H; [|discriminate].
    destruct (drain_right_body_grows ref _ _ _ _ Hb Hlen) as [Hl1 Hg1].
    pose proof (drain_right_body_measure _ _ _ _ Hc Hb) as Hdec.
    destruct (IH (length ra - cj c1) ltac:(lia)
                c1 e1 c' e' eq_refl H Hl1) as [Hl' [p Hg']].
    split; [exact Hl'|]. exists (1 + p). exact (grows_trans Hg1 Hg').
  - injection H as <- <-. split; [exact Hlen|]. exists 0. apply grows_refl.
Qed.

(** The ranges of [P ++ L ++ R ++ Z] that [_merge] reads and writes. *)
Lemma ranges_split (P L R Z X : list A) :
  1 <= length L -> 1 <= length R -> length X = length L + length R ->
  let lo := length P in
  let mid := length P + length L - 1 in
  let hi := length P + length L + length R - 1 in
  slice (P ++ L ++ R ++ Z) lo (mid + 1) = L /\
  slice (P ++ L ++ R ++ Z) (mid + 1) (hi + 1) = R /\
  slice (P ++ X ++ Z) lo (hi + 1) = X.
Proof.
  intros HL HR HX lo mid hi. split; [|split].
  - replace (mid + 1) with (length P + length L) by (unfold mid; lia).
    apply slice_mid.
  - replace (mid + 1) with (length (P ++ L))
      by (rewrite length_app; unfold mid; lia).
    replace (hi + 1) with (length (P ++ L) + length R)
      by (rewrite length_app; unfold hi; lia).
    rewrite (app_assoc P L). apply slice_mid.
  - replace (hi + 1) with (length P + length X) by (unfold hi; lia).
    apply slice_mid.
Qed.

Lemma grows_cast ref t e e' nd ns nc p nd' ns' nc' p' :
  grows ref t e e' nd ns nc p ->
  nd = nd' -> ns = ns' -> nc = nc' -> (t = true -> p = p') ->
  grows ref t e e' nd' ns' nc' p'.
Proof.
  intros (T & E & Hb & Hs & Hc) -> -> -> Hp. exists T. split; [exact E|].
  split; [exact Hb|]. split; [exact Hs|].
  destruct t; [|exact Hc]. rewrite <- (Hp eq_refl). exact Hc.
Qed.

(** The placements recorded in the trace are the comparisons and drain
    copies counted by the engine. *)
Lemma grows_effect_placements ref t e e' nd ns nc p c d :
  grows ref t e e' nd ns nc p -> effect t e e' c d -> t = true -> p = c + d.
Proof.
  intros (T & E & _ & _ & Hc) (T' & E' & _ & Hc' & _) ->.
  rewrite E in E'. apply app_inv_head in E'. subst T'. lia.
Qed.

(** [_merge] on [P ++ L ++ R ++ Z] with both halves outputs of
    [sort_list]: result, counters and the shape of the records appended. *)
Lemma _merge_grows ref P L R Z t e :
  L <> [] -> R <> [] ->
  Permutation ref (P ++ L ++ R ++ Z) ->
  (exists l, L = sort_list l) -> (exists l, R = sort_list l) ->
  (exists l, merge_lists L R = sort_list l) ->
  let lo := length P in
  let mid := length P + length L - 1 in
  let hi := length P + length L + length R - 1 in
  let out := P ++ merge_lists L R ++ Z in
  exists e' c d,
    _merge (P ++ L ++ R ++ Z) lo mid hi t e = Ok (out, e') /\
    c + d = length L + length R /\
    1 <= c /\
    effect t e e' c d /\
    grows ref t e e' 0 1 1 (length L + length R).
Proof.
  intros HL HR Hperm HsL HsR HsM lo mid hi out.
  assert (HlL : 1 <= length L) by (destruct L; [congruence|cbn; lia]).
  assert (HlR : 1 <= length R) by (destruct R; [congruence|cbn; lia]).
  destruct (@_merge_split P L R Z t e HL HR) as (e' & d & Hr & Hd & He & _).
  cbv zeta in Hr. fold mid hi out in Hr. fold lo in Hr.
  exists e', (ncmp L R), d.
  split; [exact Hr|]. split; [exact Hd|].
  split; [apply ncmp_pos; assumption|]. split; [exact He|].
  assert (Hlm : length (merge_lists L R) = length L + length R)
    by (rewrite (Permutation_length (merge_lists_perm L R)), length_app;
        reflexivity).
  destruct (@ranges_split P L R Z (merge_lists L R) HlL HlR Hlm)
    as (Hla & Hra & Hout).
  cbv zeta in Hla, Hra, Hout. fold mid hi in Hla, Hra, Hout.
  fold lo in Hla, Hra, Hout.
  assert (Hn : length (P ++ L ++ R ++ Z) = length ref)
    by (symmetry; apply Permutation_length, Hperm).
  assert (Hpo : Permutation ref out).
  { rewrite Hperm. unfold out. apply Permutation_app_head.
    rewrite app_assoc. apply Permutation_app_tail. symmetry.
    apply merge_lists_perm. }
  assert (Hhi : hi < length ref).
  { rewrite <- Hn, !length_app. unfold hi. lia. }
  unfold _merge in Hr. rewrite Hla, Hra in Hr.
  set (e0 := track t (MergeStart (P ++ L ++ R ++ Z) lo mid hi L R) e) in Hr.
  assert (Hg0 : grows ref t e e0 0 1 0 0).
  { apply (@grows_track ref t
             (MergeStart (P ++ L ++ R ++ Z) lo mid hi L R) e).
    - unfold step_in_bounds. cbn [snapshot]. rewrite Hla, Hra.
      repeat split; auto; unfold lo, mid, hi; lia.
    - cbn. auto. }
  destruct (compare_loop L R t _ e0) as [[c1 e1]|] eqn:H1;
    cbn [bind] in Hr; [|discriminate].
  destruct (drain_left_loop L t c1 e1) as [[c2 e2]|] eqn:H2;
    cbn [bind] in Hr; [|discriminate].
  destruct (drain_right_loop R t c2 e2) as [[c3 e3]|] eqn:H3;
    cbn [bind] in Hr; [|discriminate].
  injection Hr as Hc3 He'.
  destruct (@compare_loop_grows ref L R t _ _ _ _ _ eq_refl H1 Hn)
    as (Hn1 & p1 & Hg1).
  destruct (@drain_left_loop_grows ref L t _ _ _ _ _ eq_refl H2 Hn1)
    as (Hn2 & p2 & Hg2).
  destruct (@drain_right_loop_grows ref R t _ _ _ _ _ eq_refl H3 Hn2)
    as (Hn3 & p3 & Hg3).
  assert (Hg4 : grows ref t e3 e' 0 0 1 0).
  { rewrite <- He', Hc3.
    apply (@grows_track ref t (MergeComplete out lo hi) e3).
    - unfold step_in_bounds. cbn [snapshot].
      repeat split; [symmetry; apply Permutation_length, Hpo| |exact Hhi].
      unfold lo, hi. lia.
    - cbn. split; [exact Hpo|]. unfold out. rewrite Hout. exact HsM. }
  pose proof (grows_trans Hg0 (grows_trans Hg1
               (grows_trans Hg2 (grows_trans Hg3 Hg4)))) as Hg.
  eapply grows_cast; [exact Hg|reflexivity|reflexivity|reflexivity|].
  intros Ht. rewrite (grows_effect_placements Hg He Ht). exact Hd.
Qed.

(** [_merge_sort_recursive] on a non-empty range [S] of [P ++ S ++ Z]:
    result, counters and the shape of the records appended. *)
Lemma _merge_sort_recursive_grows ref t :
  forall n P S Z e,
    n = length S -> 1 <= n -> Permutation ref (P ++ S ++ Z) ->
    let lo := length P in
    let hi := length P + length S - 1 in
    exists e' c d,
      _merge_sort_recursive (P ++ S ++ Z) lo hi t e
        = Ok (P ++ sort_list S ++ Z, e') /\
      effect t e e' c d /\
      c + d <= n * Nat.log2_up n /\
      (2 <= n -> 1 <= c /\ n <= c + d) /\
      grows ref t e e' (n - 1) (n - 1) (n - 1) (c + d) /\
      (2 <= n -> t = true ->
       exists T', steps e'
                  = steps e ++ Divide (P ++ S ++ Z) lo hi ((lo + hi) / 2) :: T').
Proof.
  induction n as [n IH] using lt_wf_ind.
  intros P S Z e Hn Hn1 Hperm lo hi.
  assert (Hlen : length (P ++ S ++ Z) = length ref)
    by (symmetry; apply Permutation_length, Hperm).
  rewrite _merge_sort_recursive_eq.
  destruct (hi <=? lo) eqn:Hb.
  - apply Nat.leb_le in Hb. assert (n = 1) by (unfold hi, lo in Hb; lia).
    exists e, 0, 0. rewrite sort_list_eq.
    replace (length S <=? 1) with true by (symmetry; apply Nat.leb_le; lia).
    split; [reflexivity|]. split; [apply effect_refl|]. split; [lia|].
    split; [intros; lia|]. split; [|intros; lia].
    replace (n - 1) with 0 by lia. apply grows_refl.
  - apply Nat.leb_gt in Hb.
    assert (Hn2 : 2 <= n) by (unfold hi, lo in Hb; lia).
    destruct (half_bounds Hn2) as [[Hh1 Hh2] Hh3].
    pose proof (log2_up_half Hn2) as Hlog.
    set (h := half n) in *.
    set (L := firstn h S). set (R := skipn h S).
    assert (HS : S = L ++ R) by (symmetry; apply firstn_skipn).
    assert (HlL : length L = h) by (unfold L; rewrite length_firstn; lia).
    assert (HlR : length R = n - h) by (unfold R; rewrite length_skipn; lia).
    assert (Hmid : (lo + hi) / 2 = lo + length L - 1).
    { unfold hi. rewrite <- Hn. fold lo. rewrite mid_split by lia.
      rewrite HlL. unfold h, half. lia. }
    assert (Harr : P ++ S ++ Z = P ++ L ++ R ++ Z)
      by (rewrite HS, <- app_assoc; reflexivity).
    cbv zeta. rewrite Hmid.
    set (e0 := track t (Divide (P ++ S ++ Z) lo hi (lo + length L - 1)) e).
    assert (Hg0 : grows ref t e e0 1 0 0 0).
    { apply (@grows_track ref t
               (Divide (P ++ S ++ Z) lo hi (lo + length L - 1)) e).
      - unfold step_in_bounds. cbn [snapshot].
        split; [exact Hlen|]. rewrite <- Hlen, !length_app.
        repeat split; try (unfold hi, lo; lia). symmetry. exact Hmid.
      - exact Hperm. }
    (* left half *)
    destruct (IH h ltac:(lia) P L (R ++ Z) e0 ltac:(lia) ltac:(lia))
      as (e1 & c1 & d1 & Hr1 & He1 & Hb1 & _ & Hg1 & _).
    { rewrite <- Harr. exact Hperm. }
    cbv zeta in Hr1. fold lo in Hr1.
    rewrite Harr, Hr1. cbn [bind].
    (* right half *)
    assert (Hp1 : Permutation ref (P ++ sort_list L ++ R ++ Z)).
    { rewrite Hperm, Harr. apply Permutation_app_head, Permutation_app_tail.
      symmetry. apply sort_list_perm. }
    destruct (IH (n - h) ltac:(lia) (P ++ sort_list L) R Z e1
                ltac:(lia) ltac:(lia))
      as (e2 & c2 & d2 & Hr2 & He2 & Hb2 & _ & Hg2 & _).
    { rewrite <- app_assoc. exact Hp1. }
    cbv zeta in Hr2.
    rewrite length_app, sort_list_length in Hr2.
    rewrite <- !app_assoc in Hr2.
    replace (lo + length L - 1 + 1) with (length P + length L)
      by (unfold lo; lia).
    replace hi with (length P + length L + length R - 1)
      by (unfold hi; lia).
    rewrite Hr2. cbn [bind].
    (* merge *)
    assert (Hp2 : Permutation ref (P ++ sort_list L ++ sort_list R ++ Z)).
    { rewrite Hp1. apply Permutation_app_head, Permutation_app_head.
      apply Permutation_app_tail. symmetry. apply sort_list_perm. }
    assert (HsS : merge_lists (sort_list L) (sort_list R) = sort_list S).
    { rewrite (sort_list_eq S).
      replace (length S <=? 1) with false
        by (symmetry; apply Nat.leb_gt; lia).
      rewrite <- Hn. reflexivity. }
    destruct (@_merge_grows ref P (sort_list L) (sort_list R) Z t e2)
      as (e3 & c3 & d3 & Hr3 & Hd3 & Hc3 & He3 & Hg3);
      try (apply sort_list_not_nil; lia); try (eexists; reflexivity);
      try assumption.
    { exists S. exact HsS. }
    cbv zeta in Hr3. rewrite !sort_list_length in Hr3, Hd3, Hg3.
    rewrite HsS in Hr3. fold lo in Hr3 |- *. rewrite Hr3.
    exists e3, (c1 + c2 + c3), (d1 + d2 + d3).
    split; [reflexivity|]. split; [|split; [|split; [|split]]].
    + replace (c1 + c2 + c3) with (0 + (c1 + (c2 + c3))) by lia.
      replace (d1 + d2 + d3) with (0 + (d1 + (d2 + d3))) by lia.
      apply effect_trans with (e2 := e0); [apply effect_track; reflexivity|].
      apply effect_trans with (e2 := e1); [exact He1|].
      apply effect_trans with (e2 := e2); [exact He2|exact He3].
    + assert (Nat.log2_up (n - h) <= Nat.log2_up h)
        by (apply Nat.log2_up_le_mono; lia).
      nia.
    + intros _. lia.
    + pose proof (grows_trans Hg0 (grows_trans Hg1 (grows_trans Hg2 Hg3)))
        as Hg.
      eapply grows_cast; [exact Hg| | | |]; lia.
    + intros _ Ht.
      destruct (grows_trans Hg1 (grows_trans Hg2 Hg3)) as (T' & E' & _).
      exists T'. rewrite E'. unfold e0. rewrite Ht.
      cbn [track append_step steps]. rewrite <- app_assoc. cbn [app].
      f_equal. f_equal. f_equal; [exact Harr|lia].
Qed.

(** [merge_sort]: result, counters and the shape of the trace. *)
Lemma merge_sort_shape (arr : list A) (t : bool) (e : Engine) :
  let e0 := if t then mkEngine [] 0 0 else e in
  let n := length arr in
  exists e' c d,
    merge_sort arr t e = Ok (sort_list arr, e') /\
    effect t e0 e' c d /\
    c + d <= n * Nat.log2_up n /\
    (2 <= n -> 1 <= c /\ n <= c + d) /\
    grows arr t e0 e' (n - 1) (n - 1) (n - 1) (c + d) /\
    (2 <= n -> t = true ->
     exists T',
       steps e' = steps e0 ++ Divide arr 0 (n - 1) ((0 + (n - 1)) / 2) :: T').
Proof.
  intros e0 n. unfold merge_sort. fold e0. fold n.
  destruct (n <=? 1) eqn:Hn.
  - apply Nat.leb_le in Hn. exists e0, 0, 0.
    rewrite sort_list_eq. fold n.
    replace (n <=? 1) with true by (symmetry; apply Nat.leb_le; lia).
    split; [reflexivity|]. split; [apply effect_refl|]. split; [lia|].
    split; [intros; lia|]. split; [|intros; lia].
    replace (n - 1) with 0 by lia. apply grows_refl.
  - apply Nat.leb_gt in Hn.
    destruct (@_merge_sort_recursive_grows arr t n [] arr [] e0
                eq_refl ltac:(lia))
      as (e' & c & d & Hr & He & Hb & Hlow & Hg & Hfirst).
    { cbn [app]. rewrite app_nil_r. reflexivity. }
    cbn [app length Nat.add] in Hr, Hfirst.
    rewrite !app_nil_r in Hr, Hfirst.
    fold n in Hr, Hfirst. rewrite Hr, ?app_nil_r.
    exists e', c, d. repeat split; auto; apply Hlow; lia.
Qed.

(** The five kinds of records partition a trace. *)
Lemma count_kinds (T : list Step) :
  length T = count is_divide T + count is_merge_start T
             + count is_merge_complete T
             + count is_merge_step T + count is_merge_remaining T.
Proof.
  unfold count. induction T as [|s T IH]; [reflexivity|].
  destruct s; cbn [filter length is_divide is_merge_start is_merge_complete
                   is_merge_step is_merge_remaining]; lia.
Qed.

(** X1. After a tracked sort the statistics agree with the trace: the
    comparison counter is the number of MergeStep records and the access
    counter is three times that number plus the number of MergeRemaining
    records.  For [n >= 1] elements the three statistics satisfy
    [steps + 2 * comparisons + 3 = array_accesses + 3 * n]; for the empty
    input all three are 0. *)
Theorem statistics_agree_with_trace :
  forall (arr : list A) (e : Engine),
  exists out e',
    merge_sort arr true e = Ok (out, e') /\
    stat_comparisons (get_statistics e') = count is_merge_step (steps e') /\
    stat_array_accesses (get_statistics e')
      = 3 * count is_merge_step (steps e')
        + count is_merge_remaining (steps e') /\
    (1 <= length arr ->
     stat_steps (get_statistics e')
       + 2 * stat_comparisons (get_statistics e') + 3
     = stat_array_accesses (get_statistics e') + 3 * length arr) /\
    (length arr = 0 ->
     get_statistics e' = mkStatistics 0 0 0).
Proof.
  intros arr e.
  destruct (merge_sort_shape arr true e)
    as (e' & c & d & Hr & (T & Hs & _ & (Hms & Hmr) & Hc & Ha) & Hb & _
        & (T' & Hs' & _ & _ & Hnd & Hns & Hnc & Hp) & _).
  cbn [steps comparisons array_accesses app] in *.
  rewrite <- Hs in Hms, Hmr. rewrite <- Hs' in Hnd, Hns, Hnc, Hp.
  exists (sort_list arr), e'. split; [exact Hr|].
  unfold get_statistics.
  cbn [stat_comparisons stat_array_accesses stat_steps].
  rewrite (count_kinds (steps e')).
  split; [lia|]. split; [lia|]. split; [intros Hn; lia|].
  intros Hn. rewrite Hn in *. cbn [Nat.mul Nat.sub] in *.
  f_equal; lia.
Qed.

(** X2. The trace of a tracked sort of [n] elements holds exactly [n - 1]
    Divide records, [n - 1] MergeStart records and [n - 1] MergeComplete
    records (none for [n <= 1]). *)
Theorem trace_record_counts :
  forall (arr : list A) (e : Engine),
  exists out e',
    merge_sort arr true e = Ok (out, e') /\
    count is_divide (steps e') = length arr - 1 /\
    count is_merge_start (steps e') = length arr - 1 /\
    count is_merge_complete (steps e') = length arr - 1.
Proof.
  intros arr e.
  destruct (merge_sort_shape arr true e)
    as (e' & c & d & Hr & _ & _ & _
        & (T' & Hs' & _ & _ & Hnd & Hns & Hnc & Hp) & _).
  cbn [steps app] in Hs'. rewrite <- Hs' in *.
  exists (sort_list arr), e'. auto.
Qed.

(** X3. Every record in the trace of a tracked sort carries a snapshot of
    the same length as the input and only indices inside it: ranges satisfy
    [left <= mid < right < n], positions satisfy [position < n]; a Divide
    record carries the floor midpoint, a MergeStart record the two halves of
    its range as they stand in its snapshot, and a MergeRemaining record the
    element that its snapshot holds at the recorded position. *)
Theorem trace_indices_in_bounds :
  forall (arr : list A) (e : Engine),
  exists out e',
    merge_sort arr true e = Ok (out, e') /\
    Forall (step_in_bounds (length arr)) (steps e').
Proof.
  intros arr e.
  destruct (merge_sort_shape arr true e)
    as (e' & c & d & Hr & _ & _ & _ & (T' & Hs' & Hb & _) & _).
  cbn [steps app] in Hs'. rewrite <- Hs' in *.
  exists (sort_list arr), e'. auto.
Qed.

(** X4. In the trace of a tracked sort, the snapshot of every Divide,
    MergeStart and MergeComplete record is a permutation of the input. *)
Theorem settled_snapshots_are_permutations :
  forall (arr : list A) (e : Engine),
  exists out e',
    merge_sort arr true e = Ok (out, e') /\
    forall s, In s (steps e') ->
      is_divide s || is_merge_start s || is_merge_complete s = true ->
      Permutation arr (snapshot s).
Proof.
  intros arr e.
  destruct (merge_sort_shape arr true e)
    as (e' & c & d & Hr & _ & _ & _ & (T' & Hs' & _ & Hst & _) & _).
  cbn [steps app] in Hs'. rewrite <- Hs' in *.
  exists (sort_list arr), e'. split; [exact Hr|].
  intros s Hin Hk. rewrite Forall_forall in Hst. specialize (Hst s Hin).
  destruct s; cbn in *; try discriminate; tauto.
Qed.

(** X5. For a total [<=], in the trace of a tracked sort the two buffers of
    every MergeStart record are in non-descending order, and so is the
    range [left .. right] of the snapshot of every MergeComplete record. *)
Theorem merge_records_are_sorted :
  (forall x y, leb x y = true \/ leb y x = true) ->
  forall (arr : list A) (e : Engine),
  exists out e',
    merge_sort arr true e = Ok (out, e') /\
    (forall a l m r la ra, In (MergeStart a l m r la ra) (steps e') ->
       Sorted le la /\ Sorted le ra) /\
    (forall a l r, In (MergeComplete a l r) (steps e') ->
       Sorted le (slice a l (r + 1))).
Proof.
  intros Htot arr e.
  destruct (merge_sort_shape arr true e)
    as (e' & c & d & Hr & _ & _ & _ & (T' & Hs' & _ & Hst & _) & _).
  cbn [steps app] in Hs'. rewrite <- Hs' in *.
  exists (sort_list arr), e'. split; [exact Hr|].
  rewrite Forall_forall in Hst. split.
  - intros a l m r la ra Hin.
    destruct (Hst _ Hin) as (_ & (l1 & ->) & (l2 & ->)).
    split; apply sort_list_sorted; exact Htot.
  - intros a l r Hin. destruct (Hst _ Hin) as (_ & (l0 & ->)).
    apply sort_list_sorted; exact Htot.
Qed.

(** X6. The trace of a tracked sort of at least two elements starts with
    the Divide record of the full range [0 .. n-1], whose snapshot is the
    input and whose midpoint is [(n - 1) // 2]. *)
Theorem trace_starts_with_full_divide :
  forall (arr : list A) (e : Engine),
  2 <= length arr ->
  exists out e' T,
    merge_sort arr true e = Ok (out, e') /\
    steps e' = Divide arr 0 (length arr - 1) ((length arr - 1) / 2) :: T.
Proof.
  intros arr e Hn.
  destruct (merge_sort_shape arr true e)
    as (e' & c & d & Hr & _ & _ & _ & _ & Hfirst).
  destruct (Hfirst Hn eq_refl) as (T & HT).
  exists (sort_list arr), e', T. split; [exact Hr|exact HT].
Qed.

(** ** Sorted inputs and reference sorts *)

Lemma StronglySorted_app_inv (l1 l2 : list A) :
  StronglySorted le (l1 ++ l2) -> StronglySorted le l1 /\ StronglySorted le l2.
Proof.
  induction l1 as [|x l1 IH]; cbn [app]; intros H.
  - split; [constructor|exact H].
  - inversion H as [|? ? Hs Hf]; subst. destruct (IH Hs) as [H1 H2].
    split; [|exact H2]. constructor; [exact H1|].
    apply Forall_app in Hf. tauto.
Qed.

Lemma merge_lists_app_sorted (l r : list A) :
  StronglySorted le (l ++ r) -> merge_lists l r = l ++ r.
Proof.
  induction l as [|x l IH]; cbn [app]; intros H.
  - apply merge_lists_nil_l.
  - destruct r as [|y r].
    + rewrite merge_lists_nil_r, app_nil_r. reflexivity.
    + inversion H as [|? ? Hs Hf]; subst. rewrite merge_lists_cons.
      apply Forall_app in Hf. destruct Hf as [_ Hf].
      inversion Hf as [|? ? Hxy _]; subst. unfold le in Hxy. rewrite Hxy.
      rewrite IH by exact Hs. reflexivity.
Qed.

Lemma sort_list_sorted_id (l : list A) :
  StronglySorted le l -> sort_list l = l.
Proof.
  remember (length l) as n eqn:Hn. revert l Hn.
  induction n as [n IH] using lt_wf_ind. intros l Hn Hs.
  rewrite sort_list_eq. destruct (length l <=? 1) eqn:Hl; [reflexivity|].
  apply Nat.leb_gt in Hl.
  destruct (half_bounds (n := length l)) as [[Hh1 Hh2] _]; [lia|].
  pose proof Hs as Hs'.
  rewrite <- (firstn_skipn (half (length l)) l) in Hs'.
  destruct (StronglySorted_app_inv _ _ Hs') as [H1 H2].
  rewrite (IH (length (firstn (half (length l)) l))),
          (IH (length (skipn (half (length l)) l))); auto.
  - rewrite merge_lists_app_sorted by exact Hs'. apply firstn_skipn.
  - rewrite length_skipn. lia.
  - rewrite length_firstn. lia.
Qed.

Lemma sorted_strongly (l : list A) :
  (forall x y z, leb x y = true -> leb y z = true -> leb x z = true) ->
  Sorted le l -> StronglySorted le l.
Proof.
  intros Htrans. apply Sorted_StronglySorted.
  intros x y z. apply Htrans.
Qed.

(** Two sorted rearrangements of the same elements are equal when [<=] is
    antisymmetric. *)
Lemma sorted_permutation_unique (l1 l2 : list A) :
  (forall x y, leb x y = true \/ leb y x = true) ->
  (forall x y, leb x y = true -> leb y x = true -> x = y) ->
  StronglySorted le l1 -> StronglySorted le l2 -> Permutation l1 l2 ->
  l1 = l2.
Proof.
  intros Htot Hanti. revert l2.
  induction l1 as [|x l1 IH]; intros l2 H1 H2 Hp.
  - apply Permutation_nil in Hp. congruence.
  - destruct l2 as [|y l2];
      [apply Permutation_sym, Permutation_nil in Hp; discriminate|].
    inversion H1 as [|? ? Hs1 Hf1]; subst.
    inversion H2 as [|? ? Hs2 Hf2]; subst.
    assert (Hxy : x = y).
    { apply Hanti.
      - assert (Hin : In y (x :: l1))
          by (apply (Permutation_in _ (Permutation_sym Hp)); left; reflexivity).
        destruct Hin as [->|Hin].
        + destruct (Htot y y); assumption.
        + rewrite Forall_forall in Hf1. apply Hf1, Hin.
      - assert (Hin : In x (y :: l2))
          by (apply (Permutation_in _ Hp); left; reflexivity).
        destruct Hin as [->|Hin].
        + destruct (Htot x x); assumption.
        + rewrite Forall_forall in Hf2. apply Hf2, Hin. }
    subst y. f_equal. apply IH; auto.
    apply Permutation_cons_inv in Hp. exact Hp.
Qed.

(** ** Ranges given by indices *)

Lemma slice_app (arr : list A) a b c :
  a <= b -> b <= c -> b <= length arr ->
  slice arr a b ++ slice arr b c = slice arr a c.
Proof.
  intros Hab Hbc Hb. unfold slice.
  rewrite <- (firstn_skipn b (firstn c arr)) at 2.
  rewrite firstn_firstn, Nat.min_l by lia.
  rewrite skipn_app, length_firstn, Nat.min_l by lia.
  replace (a - b) with 0 by lia. reflexivity.
Qed.

Lemma range_split (arr : list A) lo hi :
  lo <= hi -> hi < length arr ->
  arr = firstn lo arr ++ slice arr lo (hi + 1) ++ skipn (hi + 1) arr /\
  length (firstn lo arr) = lo /\
  length (slice arr lo (hi + 1)) = hi + 1 - lo.
Proof.
  intros Hlo Hhi. split; [|split].
  - rewrite <- (firstn_skipn (hi + 1) arr) at 1.
    rewrite <- (firstn_skipn lo (firstn (hi + 1) arr)) at 1.
    rewrite firstn_firstn, Nat.min_l, <- app_assoc by lia. reflexivity.
  - rewrite length_firstn. lia.
  - apply length_slice. lia.
Qed.

(** X7. After a tracked sort of [n >= 2] elements all three statistics are
    positive: at least one comparison, at least [n + 2] array accesses and at
    least [4 * n - 3] step records. *)
Theorem tracked_statistics_positive :
  forall (arr : list A) (e : Engine),
  2 <= length arr ->
  exists out e',
    merge_sort arr true e = Ok (out, e') /\
    1 <= stat_comparisons (get_statistics e') /\
    length arr + 2 <= stat_array_accesses (get_statistics e') /\
    4 * length arr - 3 <= stat_steps (get_statistics e').
Proof.
  intros arr e Hn.
  destruct (merge_sort_shape arr true e)
    as (e' & c & d & Hr & (T & Hs & _ & _ & Hc & Ha) & _ & Hlow
        & (T' & Hs' & _ & _ & Hnd & Hns & Hnc & Hp) & _).
  destruct (Hlow Hn) as [Hc1 Hcd].
  cbn [steps comparisons array_accesses app] in *.
  exists (sort_list arr), e'. split; [exact Hr|].
  unfold get_statistics.
  cbn [stat_comparisons stat_array_accesses stat_steps].
  rewrite Hs', (count_kinds T'). lia.
Qed.

(** X8. A sort of [n] elements, tracked or not, adds at most
    [3 * n * ceil(log2 n)] to the access counter.  A tracked sort of
    [n >= 1] elements leaves at most [3 * (n - 1) + n * ceil(log2 n)] records
    in the trace, stated as [steps + 3 <= 3 * n + n * ceil(log2 n)]; a
    tracked sort of the empty list leaves the trace empty. *)
Theorem accesses_and_trace_bounded :
  forall (arr : list A) (track_steps : bool) (e : Engine),
  exists out e',
    merge_sort arr track_steps e = Ok (out, e') /\
    array_accesses e'
      <= (if track_steps then 0 else array_accesses e)
         + 3 * (length arr * Nat.log2_up (length arr)) /\
    (track_steps = true -> 1 <= length arr ->
     length (steps e') + 3
       <= 3 * length arr + length arr * Nat.log2_up (length arr)) /\
    (track_steps = true -> length arr = 0 -> steps e' = []).
Proof.
  intros arr t e.
  destruct (merge_sort_shape arr t e)
    as (e' & c & d & Hr & (T & Hs & _ & _ & Hc & Ha) & Hb & _
        & (T' & Hs' & _ & _ & Hk) & _).
  exists (sort_list arr), e'. split; [exact Hr|]. split; [|split].
  - rewrite Ha. destruct t; cbn [array_accesses]; lia.
  - intros -> Hn. cbn [steps app] in Hs'. rewrite Hs', (count_kinds T'). lia.
  - intros -> Hn. cbn [steps app] in Hs'. rewrite Hs'.
    apply length_zero_iff_nil. rewrite (count_kinds T').
    rewrite Hn in *. cbn [Nat.mul Nat.sub] in *. lia.
Qed.

(** X9. The bound asserted by [test_worst_case_performance] holds for every
    input, not only reverse-sorted ones: after a tracked sort of [n]
    elements the comparison counter is at most [2 * (n * floor(log2 n))]
    ([size.bit_length() - 1] is [floor(log2 size)] for [size >= 1]). *)
Theorem comparisons_within_test_margin :
  forall (arr : list A) (e : Engine),
  exists out e',
    merge_sort arr true e = Ok (out, e') /\
    stat_comparisons (get_statistics e')
      <= length arr * Nat.log2 (length arr) * 2.
Proof.
  intros arr e.
  destruct (merge_sort_shape arr true e)
    as (e' & c & d & Hr & (T & _ & _ & _ & Hc & _) & Hb & _).
  exists (sort_list arr), e'. split; [exact Hr|].
  cbn [get_statistics stat_comparisons]. rewrite Hc. cbn [comparisons].
  set (n := length arr) in *.
  destruct (Nat.le_gt_cases n 1) as [Hn|Hn].
  - assert (Nat.log2_up n = 0) by (apply Nat.log2_up_eqn0; exact Hn).
    nia.
  - pose proof (Nat.le_log2_up_succ_log2 n) as Hup.
    assert (1 <= Nat.log2 n) by (apply Nat.log2_le_pow2; cbn; lia).
    nia.
Qed.

(** X10. For a transitive [<=], a list that is already in non-descending
    order is returned unchanged, with either value of the flag; hence, for a
    total and transitive [<=], sorting the output of a sort again returns the
    same list. *)
Theorem sorted_input_unchanged :
  (forall x y z, leb x y = true -> leb y z = true -> leb x z = true) ->
  (forall (arr : list A) (track_steps : bool) (e : Engine),
   Sorted le arr ->
   exists e', merge_sort arr track_steps e = Ok (arr, e')) /\
  ((forall x y, leb x y = true \/ leb y x = true) ->
   forall (arr : list A) (t1 t2 : bool) (e : Engine),
   exists out e1 e2,
     merge_sort arr t1 e = Ok (out, e1) /\
     merge_sort out t2 e1 = Ok (out, e2)).
Proof.
  intros Htrans.
  assert (Hid : forall arr t e, Sorted le arr ->
            exists e', merge_sort arr t e = Ok (arr, e')).
  { intros arr t e Hs.
    destruct (merge_sort_spec arr t e) as (e' & c & d & Hr & _).
    exists e'. rewrite Hr, sort_list_sorted_id; [reflexivity|].
    apply sorted_strongly; assumption. }
  split; [exact Hid|].
  intros Htot arr t1 t2 e.
  destruct (merge_sort_spec arr t1 e) as (e1 & c & d & Hr & _).
  destruct (Hid (sort_list arr) t2 e1) as (e2 & Hr2).
  { apply sort_list_sorted. exact Htot. }
  exists (sort_list arr), e1, e2. split; assumption.
Qed.

(** X11. For a total, transitive and antisymmetric [<=] (such as the order
    of the integers) the result is the one every correct sort returns: any
    list in non-descending order that is a permutation of the input is the
    list returned by [merge_sort]. *)
Theorem agrees_with_reference_sort :
  (forall x y, leb x y = true \/ leb y x = true) ->
  (forall x y z, leb x y = true -> leb y z = true -> leb x z = true) ->
  (forall x y, leb x y = true -> leb y x = true -> x = y) ->
  forall (arr expected : list A) (track_steps : bool) (e : Engine),
  Permutation arr expected -> Sorted le expected ->
  exists e', merge_sort arr track_steps e = Ok (expected, e').
Proof.
  intros Htot Htrans Hanti arr expected t e Hp Hs.
  destruct (merge_sort_spec arr t e) as (e' & c & d & Hr & _).
  exists e'. rewrite Hr. f_equal. f_equal.
  apply sorted_permutation_unique; auto.
  - apply sorted_strongly; [assumption|]. apply sort_list_sorted. exact Htot.
  - apply sorted_strongly; assumption.
  - rewrite sort_list_perm. exact Hp.
Qed.

(** X12. [_merge_sort_recursive] sorts the range [left .. right] in place
    when the indices are non-negative: for [0 <= left <= right < len(arr)]
    and a total [<=] it returns an array of the same length in which the
    cells before [left] and after [right] are unchanged and the range holds
    a permutation of its old contents in non-descending order.  (Negative
    indices, which Python would count from the end, are outside the
    statement; [merge_sort] never passes them.) *)
Theorem _merge_sort_recursive_sorts_range :
  (forall x y, leb x y = true \/ leb y x = true) ->
  forall (arr : list A) (left right : Z) (track_steps : bool) (e : Engine),
  (0 <= left)%Z -> (left <= right)%Z -> (right < Z.of_nat (length arr))%Z ->
  let lo := Z.to_nat left in
  let hi := Z.to_nat right in
  exists out e',
    _merge_sort_recursive arr lo hi track_steps e = Ok (out, e') /\
    length out = length arr /\
    firstn lo out = firstn lo arr /\
    skipn (hi + 1) out = skipn (hi + 1) arr /\
    Permutation (slice arr lo (hi + 1)) (slice out lo (hi + 1)) /\
    Sorted le (slice out lo (hi + 1)).
Proof.
  intros Htot arr left right t e H0 Hlr Hr lo hi.
  assert (Hlo : lo <= hi) by (unfold lo, hi; lia).
  assert (Hhi : hi < length arr) by (unfold hi; lia).
  clearbody lo hi. clear H0 Hlr Hr left right.
  destruct (range_split arr Hlo Hhi) as (Harr & HlP & HlS).
  set (P := firstn lo arr) in *. set (S := slice arr lo (hi + 1)) in *.
  set (Z := skipn (hi + 1) arr) in *.
  destruct (@_merge_sort_recursive_spec t (length S) P S Z e eq_refl
              ltac:(lia)) as (e' & c & d & Hr & _).
  cbv zeta in Hr. rewrite <- Harr, HlP, HlS in Hr.
  replace (lo + (hi + 1 - lo) - 1) with hi in Hr by lia.
  exists (P ++ sort_list S ++ Z), e'. split; [exact Hr|].
  assert (HlS' : length (sort_list S) = hi + 1 - lo)
    by (rewrite sort_list_length; exact HlS).
  assert (Hout : slice (P ++ sort_list S ++ Z) lo (hi + 1) = sort_list S).
  { rewrite <- HlP at 1.
    replace (hi + 1) with (length P + length (sort_list S)) by lia.
    apply slice_mid. }
  split; [|split; [|split; [|split]]].
  - apply (f_equal (@length A)) in Harr.
    rewrite !length_app in *. rewrite sort_list_length. lia.
  - rewrite <- HlP at 1. apply firstn_len_app.
  - replace (hi + 1) with (length (P ++ sort_list S))
      by (rewrite length_app; lia).
    rewrite app_assoc. apply skipn_len_app.
  - rewrite Hout. symmetry. apply sort_list_perm.
  - rewrite Hout. apply sort_list_sorted. exact Htot.
Qed.

(** X13. [_merge] on non-negative indices
    [0 <= left <= mid < right < len(arr)] returns an array of the same
    length in which the cells outside [left .. right] are unchanged and the
    range holds a permutation of its old contents; when both halves
    [left .. mid] and [mid+1 .. right] were in non-descending order and [<=]
    is total, the range is in non-descending order afterwards.  (Negative
    indices, which Python would count from the end, are outside the
    statement; [_merge_sort_recursive] never passes them.) *)
Theorem _merge_merges_sorted_halves :
  (forall x y, leb x y = true \/ leb y x = true) ->
  forall (arr : list A) (left mid right : Z) (track_steps : bool)
         (e : Engine),
  (0 <= left)%Z -> (left <= mid)%Z -> (mid < right)%Z ->
  (right < Z.of_nat (length arr))%Z ->
  let lo := Z.to_nat left in
  let md := Z.to_nat mid in
  let hi := Z.to_nat right in
  exists out e',
    _merge arr lo md hi track_steps e = Ok (out, e') /\
    length out = length arr /\
    firstn lo out = firstn lo arr /\
    skipn (hi + 1) out = skipn (hi + 1) arr /\
    Permutation (slice arr lo (hi + 1)) (slice out lo (hi + 1)) /\
    (Sorted le (slice arr lo (md + 1)) ->
     Sorted le (slice arr (md + 1) (hi + 1)) ->
     Sorted le (slice out lo (hi + 1))).
Proof.
  intros Htot arr left mid0 right t e H0 Hlm Hmr Hr lo mid hi.
  assert (Hlo : lo <= mid) by (unfold lo, mid; lia).
  assert (Hmid : mid < hi) by (unfold mid, hi; lia).
  assert (Hhi : hi < length arr) by (unfold hi; lia).
  clearbody lo mid hi. clear H0 Hlm Hmr Hr left mid0 right.
  destruct (@_merge_spec arr lo mid hi t e Hlo Hmid Hhi)
    as (e' & d & Hr & _).
  cbv zeta in Hr.
  set (la := slice arr lo (mid + 1)) in *.
  set (ra := slice arr (mid + 1) (hi + 1)) in *.
  destruct (@range_split arr lo hi ltac:(lia) Hhi) as (Harr & HlP & HlS).
  assert (Hcat : la ++ ra = slice arr lo (hi + 1))
    by (apply slice_app; lia).
  assert (Hlm : length (merge_lists la ra) = hi + 1 - lo).
  { rewrite (Permutation_length (merge_lists_perm la ra)), Hcat. exact HlS. }
  set (P := firstn lo arr) in *. set (Z := skipn (hi + 1) arr) in *.
  assert (Hout : slice (P ++ merge_lists la ra ++ Z) lo (hi + 1)
                 = merge_lists la ra).
  { rewrite <- HlP at 1.
    replace (hi + 1) with (length P + length (merge_lists la ra)) by lia.
    apply slice_mid. }
  exists (P ++ merge_lists la ra ++ Z), e'. split; [exact Hr|].
  split; [|split; [|split; [|split]]].
  - apply (f_equal (@length A)) in Harr.
    rewrite !length_app in *. lia.
  - rewrite <- HlP at 1. apply firstn_len_app.
  - replace (hi + 1) with (length (P ++ merge_lists la ra))
      by (rewrite length_app; lia).
    rewrite app_assoc. apply skipn_len_app.
  - rewrite Hout, <- Hcat. symmetry. apply merge_lists_perm.
  - intros Hsl Hsr. rewrite Hout. apply merge_lists_sorted; assumption.
Qed.

(** X14. Aliasing of the result: for an input of at most one element
    [merge_sort] returns the very list object it was given and allocates
    nothing; for a longer input it returns a newly allocated object, distinct
    from every object that existed before the call. *)
Theorem merge_sort_ref_aliasing :
  forall (h : Heap) (p : nat) (track_steps : bool) (e : Engine),
  p < next h ->
  exists q h' e',
    merge_sort_ref h p track_steps e = Ok (q, h', e') /\
    (length (load h p) <= 1 -> q = p /\ h' = h) /\
    (2 <= length (load h p) ->
     q = next h /\ q <> p /\ next h' = S (next h)).
Proof.
  intros h p t e Hp. rewrite merge_sort_ref_eq.
  destruct (merge_sort_spec (load h p) t e) as (e' & c & d & Hr & _).
  rewrite Hr. cbn [bind].
  destruct (length (load h p) <=? 1) eqn:Hl.
  - apply Nat.leb_le in Hl. exists p, h, e'.
    split; [reflexivity|]. split; [auto|intros; lia].
  - apply Nat.leb_gt in Hl. eexists _, _, e'.
    split; [reflexivity|]. split; [intros; lia|].
    intros _. cbn [store alloc snd next]. repeat split; lia.
Qed.

(** ** Counters as a function of the input *)

Lemma sort_cost_eq l :
  sort_cost l =
  if length l <=? 1 then (0, 0)
  else
    let L := firstn (half (length l)) l in
    let R := skipn (half (length l)) l in
    let c := ncmp (sort_list L) (sort_list R) in
    (fst (sort_cost L) + fst (sort_cost R) + c,
     snd (sort_cost L) + snd (sort_cost R) + (length l - c)).
Proof. funelim (sort_cost l); by_inspect. Qed.

(** [_merge_sort_recursive] counts [sort_cost S] on a range holding [S],
    whatever the flag. *)
Lemma _merge_sort_recursive_cost t :
  forall n P S Z e,
    n = length S -> 1 <= n ->
    let lo := length P in
    let hi := length P + length S - 1 in
    exists e',
      _merge_sort_recursive (P ++ S ++ Z) lo hi t e
        = Ok (P ++ sort_list S ++ Z, e') /\
      effect t e e' (fst (sort_cost S)) (snd (sort_cost S)).
Proof.
  induction n as [n IH] using lt_wf_ind.
  intros P S Z e Hn Hn1 lo hi.
  rewrite _merge_sort_recursive_eq, (sort_cost_eq S).
  destruct (hi <=? lo) eqn:Hb.
  - apply Nat.leb_le in Hb. assert (n = 1) by (unfold hi, lo in Hb; lia).
    exists e. rewrite sort_list_eq.
    replace (length S <=? 1) with true by (symmetry; apply Nat.leb_le; lia).
    split; [reflexivity|apply effect_refl].
  - apply Nat.leb_gt in Hb.
    assert (Hn2 : 2 <= n) by (unfold hi, lo in Hb; lia).
    replace (length S <=? 1) with false
      by (symmetry; apply Nat.leb_gt; lia).
    destruct (half_bounds Hn2) as [[Hh1 Hh2] Hh3].
    rewrite <- Hn. set (h := half n) in *.
    set (L := firstn h S). set (R := skipn h S).
    assert (HS : S = L ++ R) by (symmetry; apply firstn_skipn).
    assert (HlL : length L = h) by (unfold L; rewrite length_firstn; lia).
    assert (HlR : length R = n - h) by (unfold R; rewrite length_skipn; lia).
    assert (Hmid : (lo + hi) / 2 = lo + length L - 1).
    { unfold hi. rewrite <- Hn. fold lo. rewrite mid_split by lia.
      rewrite HlL. unfold h, half. lia. }
    assert (Harr : P ++ S ++ Z = P ++ L ++ R ++ Z)
      by (rewrite HS, <- app_assoc; reflexivity).
    cbv zeta. rewrite Hmid.
    set (e0 := track t (Divide (P ++ S ++ Z) lo hi (lo + length L - 1)) e).
    destruct (IH h ltac:(lia) P L (R ++ Z) e0 ltac:(lia) ltac:(lia))
      as (e1 & Hr1 & He1).
    cbv zeta in Hr1. fold lo in Hr1. rewrite Harr, Hr1. cbn [bind].
    destruct (IH (n - h) ltac:(lia) (P ++ sort_list L) R Z e1
                ltac:(lia) ltac:(lia)) as (e2 & Hr2 & He2).
    cbv zeta in Hr2.
    rewrite length_app, sort_list_length in Hr2.
    rewrite <- !app_assoc in Hr2.
    replace (lo + length L - 1 + 1) with (length P + length L)
      by (unfold lo; lia).
    replace hi with (length P + length L + length R - 1)
      by (unfold hi; lia).
    rewrite Hr2. cbn [bind].
    destruct (@_merge_split P (sort_list L) (sort_list R) Z t e2)
      as (e3 & d3 & Hr3 & Hd3 & He3 & _);
      try (apply sort_list_not_nil; lia).
    cbv zeta in Hr3. rewrite !sort_list_length in Hr3, Hd3.
    fold lo in Hr3 |- *. rewrite Hr3.
    assert (HsS : merge_lists (sort_list L) (sort_list R) = sort_list S).
    { rewrite (sort_list_eq S).
      replace (length S <=? 1) with false
        by (symmetry; apply Nat.leb_gt; lia).
      rewrite <- Hn. reflexivity. }
    rewrite HsS. exists e3. split; [reflexivity|].
    set (c3 := ncmp (sort_list L) (sort_list R)) in *.
    replace (n - c3) with d3 by lia.
    cbn [fst snd].
    replace (fst (sort_cost L) + fst (sort_cost R) + c3)
      with (0 + (fst (sort_cost L) + (fst (sort_cost R) + c3))) by lia.
    replace (snd (sort_cost L) + snd (sort_cost R) + d3)
      with (0 + (snd (sort_cost L) + (snd (sort_cost R) + d3))) by lia.
    apply effect_trans with (e2 := e0); [apply effect_track; reflexivity|].
    apply effect_trans with (e2 := e1); [exact He1|].
    apply effect_trans with (e2 := e2); [exact He2|exact He3].
Qed.

(** X24. The counters measure the input, not the flag: on the same input,
    an untracked sort adds to the comparison counter and to the access
    counter exactly the values that a tracked sort leaves in them. *)
Theorem counters_do_not_depend_on_flag :
  forall (arr : list A) (e e0 : Engine),
  exists out e1 e2,
    merge_sort arr true e0 = Ok (out, e1) /\
    merge_sort arr false e = Ok (out, e2) /\
    comparisons e2 = comparisons e + comparisons e1 /\
    array_accesses e2 = array_accesses e + array_accesses e1.
Proof.
  intros arr e e0. unfold merge_sort.
  destruct (length arr <=? 1) eqn:Hn.
  - exists arr, (mkEngine [] 0 0), e. cbn. repeat split; lia.
  - apply Nat.leb_gt in Hn.
    destruct (@_merge_sort_recursive_cost true (length arr) [] arr []
                (mkEngine [] 0 0) eq_refl ltac:(lia))
      as (e1 & Hr1 & (T1 & _ & _ & _ & Hc1 & Ha1)).
    destruct (@_merge_sort_recursive_cost false (length arr) [] arr []
                e eq_refl ltac:(lia))
      as (e2 & Hr2 & (T2 & _ & _ & _ & Hc2 & Ha2)).
    cbn [app length Nat.add] in Hr1, Hr2.
    rewrite !app_nil_r in Hr1, Hr2.
    exists (sort_list arr), e1, e2.
    split; [exact Hr1|]. split; [exact Hr2|].
    cbn [comparisons array_accesses] in *. lia.
Qed.

End Engine.

(** * Concrete runs on integers *)

Lemma Zleb_total : forall x y : Z, Z.leb x y = true \/ Z.leb y x = true.
Proof.
  intros x y. destruct (Z.leb_spec x y); [left; reflexivity|].
  right. apply Z.leb_le. lia.
Defined.

Lemma Zleb_trans :
  forall x y z : Z, Z.leb x y = true -> Z.leb y z = true -> Z.leb x z = true.
Proof.
  intros x y z H1 H2. apply Z.leb_le. apply Z.leb_le in H1, H2. lia.
Defined.

Lemma tagged_leb_total :
  forall x y, tagged_leb x y = true \/ tagged_leb y x = true.
Proof. intros x y. apply Zleb_total. Defined.

Lemma tagged_leb_trans :
  forall x y z,
    tagged_leb x y = true -> tagged_leb y z = true -> tagged_leb x z = true.
Proof. intros x y z. apply Zleb_trans. Defined.

Lemma merge_sort_sorted_permutation_witness :
  exists out e',
    merge_sort Z.leb [64; 34; 25; 12; 22; 11; 90]%Z false (init Z)
      = Ok (out, e') /\
    length out = 7 /\
    Permutation [64; 34; 25; 12; 22; 11; 90]%Z out /\
    Sorted (le Z.leb) out.
Proof.
  exact (@merge_sort_sorted_permutation Z Z.leb Zleb_total
           [64; 34; 25; 12; 22; 11; 90]%Z false (init Z)).
Defined.

(** C2. The code breaks the claim: in [_merge] the counter updates are not
    guarded by [track_steps], only the reset in [merge_sort] is.  An
    untracked sort of [[2; 1]] on a fresh engine leaves the comparison
    counter at 1 and the access counter at 4.  After a tracked sort of
    [[3; 1; 2]], whose statistics are 3 comparisons, 11 accesses and 11
    steps, an untracked sort of [[2; 1]] leaves [get_statistics] at 4, 15 and
    11: the numbers of no single run. *)
Theorem untracked_sort_changes_counters :
  merge_sort Z.leb [2; 1]%Z false (init Z)
    = Ok ([1; 2]%Z, mkEngine [] 1 4) /\
  (exists e1 e2,
     merge_sort Z.leb [3; 1; 2]%Z true (init Z) = Ok ([1; 2; 3]%Z, e1) /\
     get_statistics e1 = mkStatistics 3 11 11 /\
     merge_sort Z.leb [2; 1]%Z false e1 = Ok ([1; 2]%Z, e2) /\
     get_statistics e2 = mkStatistics 4 15 11) /\
  ~ (forall (arr : list Z) (e : Engine Z) out e',
       merge_sort Z.leb arr false e = Ok (out, e') ->
       steps e' = steps e /\
       comparisons e' = comparisons e /\
       array_accesses e' = array_accesses e).
Proof.
  assert (H : merge_sort Z.leb [2; 1]%Z false (init Z)
              = Ok ([1; 2]%Z, mkEngine [] 1 4)) by (vm_compute; reflexivity).
  split; [exact H|]. split.
  - destruct (merge_sort Z.leb [3; 1; 2]%Z true (init Z))
      as [[o1 e1]|] eqn:H1; [|vm_compute in H1; discriminate].
    destruct (merge_sort Z.leb [2; 1]%Z false e1)
      as [[o2 e2]|] eqn:H2.
    + exists e1, e2. vm_compute in H1. injection H1 as <- <-.
      vm_compute in H2. injection H2 as <- <-.
      repeat split; reflexivity.
    + vm_compute in H1. injection H1 as <- <-.
      vm_compute in H2. discriminate.
  - intros C. destruct (C _ _ _ _ H) as (_ & Hc & _).
    cbn in Hc. discriminate.
Qed.

Lemma merge_sort_stable_witness :
  (exists out e',
     merge_sort tagged_leb (tag [3; 1; 3; 2; 1]%Z) false (init (Z * nat))
       = Ok (out, e') /\
     out = [(1%Z, 1); (1%Z, 4); (2%Z, 3); (3%Z, 0); (3%Z, 2)] /\
     forall x, filter (same_key tagged_leb x) out
               = filter (same_key tagged_leb x) (tag [3; 1; 3; 2; 1]%Z)) /\
  (exists x y,
     get [(3%Z, 0)] 0 = Ok x /\ get [(1%Z, 1)] 0 = Ok y /\
     tagged_leb x y = false).
Proof.
  pose proof (@merge_sort_stable (Z * nat) tagged_leb
                tagged_leb_total tagged_leb_trans) as [Hsort Hbody].
  split.
  - destruct (Hsort (tag [3; 1; 3; 2; 1]%Z) false (init (Z * nat)))
      as (out & e' & Hr & Hst).
    exists out, e'. split; [exact Hr|]. split; [|exact Hst].
    vm_compute in Hr. injection Hr as <- _. reflexivity.
  - destruct (Hbody [(3%Z, 0)] [(1%Z, 1)] false
                (mkCursor 0 0 0 [(3%Z, 0); (1%Z, 1)]) (init (Z * nat))
                (mkCursor 0 1 1 [(1%Z, 1); (1%Z, 1)])
                (mkEngine [] 1 3) eq_refl)
      as (x & y & Hx & Hy & Hc).
    exists x, y. split; [exact Hx|]. split; [exact Hy|].
    injection Hx as <-. injection Hy as <-. reflexivity.
Defined.

Lemma merge_sort_ref_keeps_input_witness :
  0 < next (mkHeap (fun _ => [3; 1; 2]%Z) 1) /\
  exists q h' out e',
    merge_sort_ref Z.leb (mkHeap (fun _ => [3; 1; 2]%Z) 1) 0 true (init Z)
      = Ok (q, h', e') /\
    merge_sort Z.leb (load (mkHeap (fun _ => [3; 1; 2]%Z) 1) 0) true (init Z)
      = Ok (out, e') /\
    load h' q = out /\
    load h' 0 = load (mkHeap (fun _ => [3; 1; 2]%Z) 1) 0 /\
    (forall p', p' < next (mkHeap (fun _ => [3; 1; 2]%Z) 1) ->
       load h' p' = load (mkHeap (fun _ => [3; 1; 2]%Z) 1) p').
Proof.
  split; [cbn; lia|].
  apply (@merge_sort_ref_keeps_input Z Z.leb
           (mkHeap (fun _ => [3; 1; 2]%Z) 1) 0 true (init Z)).
  cbn. lia.
Defined.

Lemma merge_counter_increments_witness :
  (comparisons (mkEngine (A := Z) [] 1 3) = comparisons (init Z) + 1 /\
   array_accesses (mkEngine (A := Z) [] 1 3)
     = array_accesses (init Z) + 2 + 1) /\
  (0 <= 0 /\ 0 < 1 /\ 1 < length [2; 1]%Z /\
   exists out e' c d T,
     _merge Z.leb [2; 1]%Z 0 0 1 true (init Z) = Ok (out, e') /\
     c + d = 1 - 0 + 1 /\
     comparisons e' = comparisons (init Z) + c /\
     array_accesses e' = array_accesses (init Z) + 3 * c + d /\
     steps e' = steps (init Z) ++ T /\
     count (@is_merge_step Z) T = c /\
     count (@is_merge_remaining Z) T = d).
Proof.
  pose proof (@merge_counter_increments Z Z.leb) as (Hcmp & _ & _ & Hmerge).
  split.
  - apply (Hcmp [2]%Z [1]%Z false (mkCursor 0 0 0 [2; 1]%Z) (init Z)
             (mkCursor 0 1 1 [1; 1]%Z)).
    reflexivity.
  - split; [lia|]. split; [lia|]. split; [cbn; lia|].
    apply (Hmerge [2; 1]%Z 0 0 1 true (init Z)); cbn; lia.
Defined.

Lemma final_snapshot_is_result_witness :
  2 <= length [3; 1; 2]%Z /\
  exists out e' T,
    merge_sort Z.leb [3; 1; 2]%Z true (init Z) = Ok (out, e') /\
    steps e' = T ++ [MergeComplete out 0 (length [3; 1; 2]%Z - 1)].
Proof.
  split; [cbn; lia|].
  apply (@final_snapshot_is_result Z Z.leb [3; 1; 2]%Z (init Z)).
  cbn. lia.
Defined.

Lemma short_input_untouched_witness :
  length [42]%Z <= 1 /\
  merge_sort Z.leb [42]%Z true (mkEngine [] 5 7)
    = Ok ([42]%Z, mkEngine [] 0 0).
Proof.
  split; [cbn; lia|].
  apply (@short_input_untouched Z Z.leb [42]%Z (mkEngine [] 5 7)).
  cbn. lia.
Defined.

Lemma merge_sort_total_nlogn_witness :
  (0 < 6 /\ (0 + 6) / 2 - 0 < 6 - 0 /\ 6 - ((0 + 6) / 2 + 1) < 6 - 0) /\
  exists out e' c,
    merge_sort Z.leb [64; 34; 25; 12; 22; 11; 90]%Z true (init Z)
      = Ok (out, e') /\
    comparisons e' = 0 + c /\
    c <= 7 * Nat.log2_up 7.
Proof.
  pose proof (@merge_sort_total_nlogn Z Z.leb) as [Hrange Hsort].
  split.
  - split; [lia|]. apply (Hrange 0 6). lia.
  - apply (Hsort [64; 34; 25; 12; 22; 11; 90]%Z true (init Z)).
Defined.

Lemma merge_steps_consistent_witness :
  exists out e',
    merge_sort Z.leb [3; 1; 2]%Z true (init Z) = Ok (out, e') /\
    forall array x y chosen position,
      In (MergeStep array (x, y) chosen position) (steps e') ->
      chosen = (if Z.leb x y then x else y) /\
      nth_error array position = Some chosen.
Proof.
  exact (@merge_steps_consistent Z Z.leb [3; 1; 2]%Z (init Z)).
Defined.

(** ** Concrete runs for the further properties *)

Lemma Zleb_antisym :
  forall x y : Z, Z.leb x y = true -> Z.leb y x = true -> x = y.
Proof.
  intros x y H1 H2. apply Z.leb_le in H1, H2. lia.
Defined.

Lemma settled_snapshots_are_permutations_witness :
  exists out e',
    merge_sort Z.leb [3; 1; 2]%Z true (init Z) = Ok (out, e') /\
    forall s, In s (steps e') ->
      is_divide s || is_merge_start s || is_merge_complete s = true ->
      Permutation [3; 1; 2]%Z (snapshot s).
Proof.
  exact (@settled_snapshots_are_permutations Z Z.leb [3; 1; 2]%Z (init Z)).
Defined.

Lemma merge_records_are_sorted_witness :
  exists out e',
    merge_sort Z.leb [3; 1; 2]%Z true (init Z) = Ok (out, e') /\
    (forall a l m r la ra, In (MergeStart a l m r la ra) (steps e') ->
       Sorted (le Z.leb) la /\ Sorted (le Z.leb) ra) /\
    (forall a l r, In (MergeComplete a l r) (steps e') ->
       Sorted (le Z.leb) (slice a l (r + 1))).
Proof.
  exact (@merge_records_are_sorted Z Z.leb Zleb_total [3; 1; 2]%Z (init Z)).
Defined.

Lemma trace_starts_with_full_divide_witness :
  2 <= length [3; 1; 2]%Z /\
  exists out e' T,
    merge_sort Z.leb [3; 1; 2]%Z true (init Z) = Ok (out, e') /\
    steps e' = Divide [3; 1; 2]%Z 0 (length [3; 1; 2]%Z - 1)
                 ((length [3; 1; 2]%Z - 1) / 2) :: T.
Proof.
  split; [cbn; lia|].
  apply (@trace_starts_with_full_divide Z Z.leb [3; 1; 2]%Z (init Z)).
  cbn. lia.
Defined.

Lemma tracked_statistics_positive_witness :
  2 <= length [3; 1]%Z /\
  exists out e',
    merge_sort Z.leb [3; 1]%Z true (init Z) = Ok (out, e') /\
    1 <= stat_comparisons (get_statistics e') /\
    length [3; 1]%Z + 2 <= stat_array_accesses (get_statistics e') /\
    4 * length [3; 1]%Z - 3 <= stat_steps (get_statistics e').
Proof.
  split; [cbn; lia|].
  apply (@tracked_statistics_positive Z Z.leb [3; 1]%Z (init Z)).
  cbn. lia.
Defined.

Lemma accesses_and_trace_bounded_witness :
  (1 <= length [3; 1; 2]%Z /\
   exists out e',
     merge_sort Z.leb [3; 1; 2]%Z true (init Z) = Ok (out, e') /\
     array_accesses e' <= 0 + 3 * (3 * Nat.log2_up 3) /\
     length (steps e') + 3 <= 3 * 3 + 3 * Nat.log2_up 3) /\
  (length (@nil Z) = 0 /\
   exists out e',
     merge_sort Z.leb [] true (init Z) = Ok (out, e') /\ steps e' = []).
Proof.
  split.
  - split; [cbn; lia|].
    destruct (@accesses_and_trace_bounded Z Z.leb [3; 1; 2]%Z true (init Z))
      as (out & e' & Hr & Ha & Hs & _).
    exists out, e'. split; [exact Hr|]. split; [exact Ha|].
    apply Hs; [reflexivity|cbn; lia].
  - split; [reflexivity|].
    destruct (@accesses_and_trace_bounded Z Z.leb [] true (init Z))
      as (out & e' & Hr & _ & _ & Hs).
    exists out, e'. split; [exact Hr|]. apply Hs; reflexivity.
Defined.

Lemma statistics_agree_with_trace_witness :
  (1 <= length [3; 1; 2]%Z /\
   exists out e',
     merge_sort Z.leb [3; 1; 2]%Z true (init Z) = Ok (out, e') /\
     stat_steps (get_statistics e')
       + 2 * stat_comparisons (get_statistics e') + 3
     = stat_array_accesses (get_statistics e') + 3 * 3) /\
  (length (@nil Z) = 0 /\
   exists out e',
     merge_sort Z.leb [] true (init Z) = Ok (out, e') /\
     get_statistics e' = mkStatistics 0 0 0).
Proof.
  split.
  - split; [cbn; lia|].
    destruct (@statistics_agree_with_trace Z Z.leb [3; 1; 2]%Z (init Z))
      as (out & e' & Hr & _ & _ & Hs & _).
    exists out, e'. split; [exact Hr|]. apply Hs. cbn. lia.
  - split; [reflexivity|].
    destruct (@statistics_agree_with_trace Z Z.leb [] (init Z))
      as (out & e' & Hr & _ & _ & _ & Hs).
    exists out, e'. split; [exact Hr|]. apply Hs. reflexivity.
Defined.

Lemma sorted_input_unchanged_witness :
  (Sorted (le Z.leb) [1; 2; 2; 5]%Z /\
   exists e', merge_sort Z.leb [1; 2; 2; 5]%Z true (init Z)
              = Ok ([1; 2; 2; 5]%Z, e')) /\
  (exists out e1 e2,
     merge_sort Z.leb [3; 1; 2]%Z true (init Z) = Ok (out, e1) /\
     merge_sort Z.leb out false e1 = Ok (out, e2)).
Proof.
  pose proof (@sorted_input_unchanged Z Z.leb Zleb_trans) as [Hid Hre].
  assert (Hs : Sorted (le Z.leb) [1; 2; 2; 5]%Z)
    by (repeat constructor).
  split.
  - split; [exact Hs|]. apply Hid. exact Hs.
  - apply (Hre Zleb_total).
Defined.

Lemma agrees_with_reference_sort_witness :
  Permutation [3; 1; 2]%Z [1; 2; 3]%Z /\
  Sorted (le Z.leb) [1; 2; 3]%Z /\
  exists e', merge_sort Z.leb [3; 1; 2]%Z false (init Z)
             = Ok ([1; 2; 3]%Z, e').
Proof.
  assert (Hp : Permutation [3; 1; 2]%Z [1; 2; 3]%Z).
  { apply (Permutation_cons_app [1; 2]%Z [] 3%Z). reflexivity. }
  assert (Hs : Sorted (le Z.leb) [1; 2; 3]%Z) by (repeat constructor).
  split; [exact Hp|]. split; [exact Hs|].
  apply (@agrees_with_reference_sort Z Z.leb
           Zleb_total Zleb_trans Zleb_antisym); assumption.
Defined.

Lemma _merge_sort_recursive_sorts_range_witness :
  (0 <= 1)%Z /\ (1 <= 3)%Z /\ (3 < Z.of_nat (length [9; 4; 3; 1; 0]%Z))%Z /\
  exists out e',
    _merge_sort_recursive Z.leb [9; 4; 3; 1; 0]%Z 1 3 false (init Z)
      = Ok (out, e') /\
    out = [9; 1; 3; 4; 0]%Z /\
    length out = length [9; 4; 3; 1; 0]%Z /\
    firstn 1 out = firstn 1 [9; 4; 3; 1; 0]%Z /\
    skipn (3 + 1) out = skipn (3 + 1) [9; 4; 3; 1; 0]%Z /\
    Permutation (slice [9; 4; 3; 1; 0]%Z 1 (3 + 1)) (slice out 1 (3 + 1)) /\
    Sorted (le Z.leb) (slice out 1 (3 + 1)).
Proof.
  split; [lia|]. split; [lia|]. split; [cbn; lia|].
  destruct (@_merge_sort_recursive_sorts_range Z Z.leb Zleb_total
              [9; 4; 3; 1; 0]%Z 1%Z 3%Z false (init Z)
              ltac:(lia) ltac:(lia) ltac:(cbn; lia))
    as (out & e' & Hr & H).
  change (Z.to_nat 1) with 1 in *. change (Z.to_nat 3) with 3 in *.
  exists out, e'. split; [exact Hr|]. split; [|exact H].
  vm_compute in Hr. injection Hr as <- _. reflexivity.
Defined.

Lemma _merge_merges_sorted_halves_witness :
  (0 <= 0)%Z /\ (0 <= 1)%Z /\ (1 < 3)%Z /\
  (3 < Z.of_nat (length [2; 7; 1; 5; 0]%Z))%Z /\
  Sorted (le Z.leb) (slice [2; 7; 1; 5; 0]%Z 0 (1 + 1)) /\
  Sorted (le Z.leb) (slice [2; 7; 1; 5; 0]%Z (1 + 1) (3 + 1)) /\
  exists out e',
    _merge Z.leb [2; 7; 1; 5; 0]%Z 0 1 3 false (init Z) = Ok (out, e') /\
    out = [1; 2; 5; 7; 0]%Z /\
    length out = length [2; 7; 1; 5; 0]%Z /\
    firstn 0 out = firstn 0 [2; 7; 1; 5; 0]%Z /\
    skipn (3 + 1) out = skipn (3 + 1) [2; 7; 1; 5; 0]%Z /\
    Permutation (slice [2; 7; 1; 5; 0]%Z 0 (3 + 1)) (slice out 0 (3 + 1)) /\
    Sorted (le Z.leb) (slice out 0 (3 + 1)).
Proof.
  assert (Hl : Sorted (le Z.leb) (slice [2; 7; 1; 5; 0]%Z 0 (1 + 1)))
    by (repeat constructor).
  assert (Hr' : Sorted (le Z.leb) (slice [2; 7; 1; 5; 0]%Z (1 + 1) (3 + 1)))
    by (repeat constructor).
  split; [lia|]. split; [lia|]. split; [lia|]. split; [cbn; lia|].
  split; [exact Hl|]. split; [exact Hr'|].
  destruct (@_merge_merges_sorted_halves Z Z.leb Zleb_total
              [2; 7; 1; 5; 0]%Z 0%Z 1%Z 3%Z false (init Z)
              ltac:(lia) ltac:(lia) ltac:(lia) ltac:(cbn; lia))
    as (out & e' & Hr & Hlen & Hf & Hs & Hp & Hsorted).
  change (Z.to_nat 0) with 0 in *. change (Z.to_nat 1) with 1 in *.
  change (Z.to_nat 3) with 3 in *.
  exists out, e'. split; [exact Hr|].
  split; [vm_compute in Hr; injection Hr as <- _; reflexivity|].
  split; [exact Hlen|]. split; [exact Hf|]. split; [exact Hs|].
  split; [exact Hp|]. apply Hsorted; assumption.
Defined.

Lemma merge_sort_ref_aliasing_witness :
  0 < next (mkHeap (fun _ => [42]%Z) 1) /\
  exists q h' e',
    merge_sort_ref Z.leb (mkHeap (fun _ => [42]%Z) 1) 0 false (init Z)
      = Ok (q, h', e') /\
    (length (load (mkHeap (fun _ => [42]%Z) 1) 0) <= 1 ->
     q = 0 /\ h' = mkHeap (fun _ => [42]%Z) 1) /\
    (2 <= length (load (mkHeap (fun _ => [42]%Z) 1) 0) ->
     q = next (mkHeap (fun _ => [42]%Z) 1) /\ q <> 0 /\
     next h' = S (next (mkHeap (fun _ => [42]%Z) 1))).
Proof.
  split; [cbn; lia|].
  apply (@merge_sort_ref_aliasing Z Z.leb
           (mkHeap (fun _ => [42]%Z) 1) 0 false (init Z)).
  cbn. lia.
Defined.

(** * Sample data and display (generate_random_array in algorithm.py,
      generate_sample_data and format_array_display in utils.py)

    Python integers are [Z]; [x // y] with [y > 0] is [Z.div]. *)

(** Exceptions raised by this code. *)
Inductive exn : Type := ValueError | IndexErr.

Inductive py (X : Type) : Type :=
| Ret (x : X)
| Raise (ex : exn).
Arguments Ret {X} x.
Arguments Raise {X} ex.

(** The state of the [random] module: a tape of raw draws and the number of
    draws made so far. *)
Record Rng : Type := mkRng {
  tape : nat -> Z;
  pos : nat
}.

(** [random.randint(a, b)], of the standard library: some integer [N] with
    [a <= N <= b], read off the tape; ValueError when the range is empty. *)
Definition randint (a b : Z) (g : Rng) : py (Z * Rng) :=
  if (b <? a)%Z then Raise ValueError
  else Ret ((a + tape g (pos g) mod (b - a + 1))%Z, mkRng (tape g) (S (pos g))).

(** [[random.randint(a, b) for _ in range(n)]] *)
Fixpoint randints (n : nat) (a b : Z) (g : Rng) : py (list Z * Rng) :=
  match n with
  | 0 => Ret ([], g)
  | S n' =>
      match randint a b g with
      | Raise ex => Raise ex
      | Ret (x, g1) =>
          match randints n' a b g1 with
          | Raise ex => Raise ex
          | Ret (l, g2) => Ret (x :: l, g2)
          end
      end
  end.

(** [generate_random_array(size, min_val, max_val)] of algorithm.py *)
Definition generate_random_array (size min_val max_val : Z) (g : Rng)
    : py (list Z * Rng) :=
  randints (Z.to_nat size) min_val max_val g.

(** [list(range(a, b))] *)
Definition py_range (a b : Z) : list Z :=
  map (fun i => (a + Z.of_nat i)%Z) (seq 0 (Z.to_nat (b - a))).

(** [list(range(a, b, -1))] *)
Definition py_range_down (a b : Z) : list Z :=
  map (fun i => (a - Z.of_nat i)%Z) (seq 0 (Z.to_nat (a - b))).

(** The cell that index [i] of a list of [len] cells denotes: negative
    indices count from the end. *)
Definition py_index (len : nat) (i : Z) : option nat :=
  if (0 <=? i)%Z then
    if (i <? Z.of_nat len)%Z then Some (Z.to_nat i) else None
  else
    if (- Z.of_nat len <=? i)%Z then Some (Z.to_nat (Z.of_nat len + i))
    else None.

(** [l[i]] *)
Definition py_get (l : list Z) (i : Z) : py Z :=
  match py_index (length l) i with
  | None => Raise IndexErr
  | Some k =>
      match get l k with
      | Ok x => Ret x
      | IndexError => Raise IndexErr
      end
  end.

(** [l[i] = v] *)
Definition py_set (l : list Z) (i : Z) (v : Z) : py (list Z) :=
  match py_index (length l) i with
  | None => Raise IndexErr
  | Some k =>
      match set l k v with
      | Ok l' => Ret l'
      | IndexError => Raise IndexErr
      end
  end.

(** [arr[i], arr[j] = arr[j], arr[i]]: both reads, then both writes. *)
Definition swap (arr : list Z) (i j : Z) : py (list Z) :=
  match py_get arr j with
  | Raise ex => Raise ex
  | Ret x =>
      match py_get arr i with
      | Raise ex => Raise ex
      | Ret y =>
          match py_set arr i x with
          | Raise ex => Raise ex
          | Ret arr1 => py_set arr1 j y
          end
      end
  end.

(** The loop of the "Nearly Sorted" branch, [n] iterations. *)
Fixpoint nearly_sorted_swaps (n : nat) (size : Z) (arr : list Z) (g : Rng)
    : py (list Z * Rng) :=
  match n with
  | 0 => Ret (arr, g)
  | S n' =>
      match randint 0 (size - 1) g with
      | Raise ex => Raise ex
      | Ret (i, g1) =>
          match randint 0 (size - 1) g1 with
          | Raise ex => Raise ex
          | Ret (j, g2) =>
              match swap arr i j with
              | Raise ex => Raise ex
              | Ret arr' => nearly_sorted_swaps n' size arr' g2
              end
          end
      end
  end.

(** [generate_sample_data(data_type, size)] of utils.py *)
Definition generate_sample_data (data_type : String.string) (size : Z)
    (g : Rng) : py (list Z * Rng) :=
  if String.eqb data_type "Random" then
    randints (Z.to_nat size) 1 100 g
  else if String.eqb data_type "Sorted" then
    Ret (py_range 1 (size + 1), g)
  else if String.eqb data_type "Reverse Sorted" then
    Ret (py_range_down size 0, g)
  else if String.eqb data_type "Nearly Sorted" then
    nearly_sorted_swaps (Z.to_nat (Z.max 1 (size / 10))) size
      (py_range 1 (size + 1)) g
  else if String.eqb data_type "Many Duplicates" then
    randints (Z.to_nat size) 1 (size / 3 + 1) g
  else
    randints (Z.to_nat size) 1 100 g.

(** [str(z)] for an integer *)
Definition str_int (z : Z) : String.string :=
  DecimalString.NilZero.string_of_int (Z.to_int z).

(** [str(l)] for a list of integers *)
Definition str_list (l : list Z) : String.string :=
  String.append "[" (String.append (String.concat ", " (map str_int l)) "]").

(** A slice bound brought into [0 .. len]. *)
Definition slice_bound (len i : Z) : Z :=
  if (i <? 0)%Z then Z.max 0 (i + len) else Z.min i len.

(** [l[start:stop]], either bound possibly left out. *)
Definition py_slice (l : list Z) (start stop : option Z) : list Z :=
  let len := Z.of_nat (length l) in
  let a := match start with None => 0%Z | Some i => slice_bound len i end in
  let b := match stop with None => len | Some j => slice_bound len j end in
  firstn (Z.to_nat (b - a)) (skipn (Z.to_nat a) l).

(** [format_array_display(array, max_display)] of utils.py;
    [-max_display//2] is [(-max_display) // 2]. *)
Definition format_array_display (array : list Z) (max_display : Z)
    : String.string :=
  if (Z.of_nat (length array) <=? max_display)%Z then str_list array
  else
    String.append (str_list (py_slice array None (Some (max_display / 2)%Z)))
      (String.append " ... "
         (String.append
            (str_list (py_slice array (Some ((- max_display) / 2)%Z) None))
            (String.append " (length: "
               (String.append (str_int (Z.of_nat (length array))) ")")))).

(** ** Random draws *)

Lemma randint_spec (a b : Z) (g : Rng) :
  (a <= b)%Z ->
  exists x, randint a b g = Ret (x, mkRng (tape g) (S (pos g))) /\
            (a <= x <= b)%Z.
Proof.
  intros Hab. unfold randint.
  replace (b <? a)%Z with false by (symmetry; apply Z.ltb_ge; lia).
  eexists. split; [reflexivity|].
  pose proof (Z.mod_pos_bound (tape g (pos g)) (b - a + 1) ltac:(lia)). lia.
Qed.

Lemma randint_empty (a b : Z) (g : Rng) :
  (b < a)%Z -> randint a b g = Raise ValueError.
Proof.
  intros Hab. unfold randint.
  replace (b <? a)%Z with true by (symmetry; apply Z.ltb_lt; lia).
  reflexivity.
Qed.

Lemma randints_spec (n : nat) (a b : Z) :
  (a <= b)%Z ->
  forall g, exists l,
    randints n a b g = Ret (l, mkRng (tape g) (pos g + n)) /\
    length l = n /\
    Forall (fun x => (a <= x <= b)%Z) l.
Proof.
  intros Hab. induction n as [|n IH]; intros g.
  - exists []. cbn [randints]. rewrite Nat.add_0_r. destruct g.
    repeat split; constructor.
  - destruct (randint_spec g Hab) as (x & Hx & Hr).
    destruct (IH (mkRng (tape g) (S (pos g)))) as (l & Hl & Hlen & Hall).
    exists (x :: l). cbn [randints]. rewrite Hx, Hl. cbn [tape pos length].
    replace (S (pos g) + n) with (pos g + S n) by lia.
    repeat split; auto.
Qed.

(** ** Ranges *)

Lemma py_range_length a b : length (py_range a b) = Z.to_nat (b - a).
Proof. unfold py_range. rewrite length_map, length_seq. reflexivity. Qed.

Lemma up_to_S (n : nat) :
  py_range 1 (Z.of_nat (S n) + 1) = py_range 1 (Z.of_nat n + 1) ++ [Z.of_nat (S n)].
Proof.
  unfold py_range.
  replace (Z.to_nat (Z.of_nat (S n) + 1 - 1)) with (S n) by lia.
  replace (Z.to_nat (Z.of_nat n + 1 - 1)) with n by lia.
  rewrite seq_S, map_app. cbn [map Nat.add]. f_equal. f_equal. lia.
Qed.

Lemma down_from_S (n : nat) :
  py_range_down (Z.of_nat (S n)) 0 = Z.of_nat (S n) :: py_range_down (Z.of_nat n) 0.
Proof.
  unfold py_range_down.
  replace (Z.to_nat (Z.of_nat (S n) - 0)) with (S n) by lia.
  replace (Z.to_nat (Z.of_nat n - 0)) with n by lia.
  cbn [seq map]. f_equal; try lia.
  rewrite <- seq_shift, map_map. apply map_ext. intros i. lia.
Qed.

Lemma py_range_down_perm (size : Z) :
  Permutation (py_range_down size 0) (py_range 1 (size + 1)).
Proof.
  destruct (Z.le_gt_cases 0 size) as [Hs|Hs].
  - rewrite <- (Z2Nat.id size Hs). generalize (Z.to_nat size) as n.
    induction n as [|n IH]; [reflexivity|].
    rewrite down_from_S, up_to_S.
    etransitivity; [apply perm_skip, IH|]. apply Permutation_cons_append.
  - unfold py_range_down, py_range.
    replace (Z.to_nat (size - 0)) with 0 by lia.
    replace (Z.to_nat (size + 1 - 1)) with 0 by lia. reflexivity.
Qed.

Lemma py_range_bounds a b :
  Forall (fun x => (a <= x < b)%Z) (py_range a b).
Proof.
  unfold py_range. apply Forall_forall. intros x Hin.
  apply in_map_iff in Hin. destruct Hin as (i & <- & Hi).
  apply in_seq in Hi. lia.
Qed.

Lemma py_range_sorted a b : Sorted (le Z.leb) (py_range a b).
Proof.
  unfold py_range. generalize (Z.to_nat (b - a)) as n. generalize 0 as s.
  intros s n. revert s. induction n as [|n IH]; intros s; cbn [seq map].
  - constructor.
  - constructor; [apply IH|].
    destruct n; cbn [seq map]; constructor.
    unfold le. apply Z.leb_le. lia.
Qed.

(** ** Swapping two cells *)

Lemma set_replace_perm (t : list Z) (k : nat) (x h : Z) :
  nth_error t k = Some x ->
  exists t', set t k h = Ok t' /\ Permutation (h :: t) (x :: t').
Proof.
  revert k. induction t as [|x0 t0 IH]; intros k Hk.
  - destruct k; discriminate.
  - destruct k as [|k]; cbn [nth_error] in Hk.
    + injection Hk as ->. exists (h :: t0). split; [reflexivity|].
      apply perm_swap.
    + destruct (IH k Hk) as (t0' & Hs & Hp). exists (x0 :: t0').
      cbn [set]. rewrite Hs. split; [reflexivity|].
      etransitivity; [apply perm_swap|].
      etransitivity; [apply perm_skip, Hp|]. apply perm_swap.
Qed.

Lemma swap_cells_perm (l : list Z) (a b : nat) (x y : Z) :
  nth_error l a = Some y -> nth_error l b = Some x ->
  exists l1 l2,
    set l a x = Ok l1 /\ set l1 b y = Ok l2 /\ Permutation l l2.
Proof.
  revert a b. induction l as [|h t IH]; intros a b Ha Hb.
  - destruct a; discriminate.
  - destruct a as [|a], b as [|b]; cbn [nth_error] in Ha, Hb.
    + injection Ha as ->. injection Hb as ->.
      exists (x :: t), (x :: t). repeat split; reflexivity.
    + injection Ha as ->.
      destruct (set_replace_perm t b y Hb) as (t' & Hs & Hp).
      exists (x :: t), (x :: t'). cbn [set]. rewrite Hs.
      repeat split; auto.
    + injection Hb as ->.
      destruct (set_replace_perm t a x Ha) as (t' & Hs & Hp).
      exists (x :: t'), (y :: t'). cbn [set]. rewrite Hs.
      repeat split; auto.
    + destruct (IH a b Ha Hb) as (l1 & l2 & H1 & H2 & Hp).
      exists (h :: l1), (h :: l2). cbn [set]. rewrite H1. cbn [bind].
      rewrite H2. repeat split; auto.
Qed.

Lemma py_index_in (len : nat) (i : Z) :
  (0 <= i < Z.of_nat len)%Z -> py_index len i = Some (Z.to_nat i).
Proof.
  intros H. unfold py_index.
  replace (0 <=? i)%Z with true by (symmetry; apply Z.leb_le; lia).
  replace (i <? Z.of_nat len)%Z with true by (symmetry; apply Z.ltb_lt; lia).
  reflexivity.
Qed.

Lemma swap_perm (arr : list Z) (i j : Z) :
  (0 <= i < Z.of_nat (length arr))%Z -> (0 <= j < Z.of_nat (length arr))%Z ->
  exists arr', swap arr i j = Ret arr' /\ Permutation arr arr'.
Proof.
  intros Hi Hj.
  destruct (nth_error arr (Z.to_nat i)) as [y|] eqn:Hy;
    [|apply nth_error_None in Hy; lia].
  destruct (nth_error arr (Z.to_nat j)) as [x|] eqn:Hx;
    [|apply nth_error_None in Hx; lia].
  destruct (swap_cells_perm arr _ _ Hy Hx) as (l1 & l2 & H1 & H2 & Hp).
  assert (Hl1 : length l1 = length arr).
  { destruct (set_ok_inv _ _ _ H1) as (_ & E & _). exact E. }
  exists l2. split; [|exact Hp].
  unfold swap, py_get, py_set, get.
  rewrite !py_index_in by assumption. rewrite Hx, Hy, H1.
  rewrite py_index_in by (rewrite Hl1; assumption). rewrite H2. reflexivity.
Qed.

Lemma nearly_sorted_swaps_spec (n : nat) (size : Z) :
  (1 <= size)%Z ->
  forall arr g, length arr = Z.to_nat size ->
  exists l,
    nearly_sorted_swaps n size arr g
      = Ret (l, mkRng (tape g) (pos g + 2 * n)) /\
    Permutation arr l.
Proof.
  intros Hs. induction n as [|n IH]; intros arr g Hlen.
  - exists arr. cbn [nearly_sorted_swaps]. rewrite Nat.add_0_r. destruct g.
    split; reflexivity.
  - cbn [nearly_sorted_swaps].
    destruct (@randint_spec 0 (size - 1) g ltac:(lia)) as (i & Hi & Hri).
    rewrite Hi.
    destruct (@randint_spec 0 (size - 1) (mkRng (tape g) (S (pos g)))
                ltac:(lia)) as (j & Hj & Hrj).
    rewrite Hj. cbn [tape pos].
    destruct (@swap_perm arr i j) as (arr' & Hsw & Hp); try lia.
    rewrite Hsw.
    destruct (IH arr' (mkRng (tape g) (S (S (pos g))))) as (l & Hl & Hpl).
    { rewrite <- (Permutation_length Hp). exact Hlen. }
    exists l. rewrite Hl. cbn [tape pos].
    replace (S (S (pos g)) + 2 * n) with (pos g + 2 * S n) by lia.
    split; [reflexivity|]. etransitivity; eassumption.
Qed.

(** ** Slices *)

Lemma py_slice_head (l : list Z) (k : Z) :
  (0 <= k <= Z.of_nat (length l))%Z ->
  py_slice l None (Some k) = firstn (Z.to_nat k) l.
Proof.
  intros Hk. unfold py_slice, slice_bound.
  replace (k <? 0)%Z with false by (symmetry; apply Z.ltb_ge; lia).
  rewrite Z.min_l, Z.sub_0_r by lia. reflexivity.
Qed.

Lemma py_slice_tail (l : list Z) (k : Z) :
  (0 < k <= Z.of_nat (length l))%Z ->
  py_slice l (Some (- k)%Z) None = skipn (length l - Z.to_nat k) l.
Proof.
  intros Hk. unfold py_slice, slice_bound.
  replace (- k <? 0)%Z with true by (symmetry; apply Z.ltb_lt; lia).
  rewrite Z.max_r by lia.
  replace (Z.to_nat (- k + Z.of_nat (length l))) with (length l - Z.to_nat k)
    by lia.
  apply firstn_all2. rewrite length_skipn. lia.
Qed.

(** ** Sorting integers *)

Lemma merge_sort_Z_result (arr expected : list Z) (t : bool) (e : Engine Z) :
  Permutation arr expected -> Sorted (le Z.leb) expected ->
  exists e', merge_sort Z.leb arr t e = Ok (expected, e').
Proof.
  intros Hp Hs.
  destruct (merge_sort_spec Z.leb arr t e) as (e' & c & d & Hr & _).
  exists e'. rewrite Hr. f_equal. f_equal.
  apply (@sorted_permutation_unique Z Z.leb); auto using Zleb_total, Zleb_antisym.
  - apply sorted_strongly; [apply Zleb_trans|].
    apply sort_list_sorted, Zleb_total.
  - apply sorted_strongly; [apply Zleb_trans|exact Hs].
  - rewrite sort_list_perm. exact Hp.
Qed.

(** X15. [generate_random_array(size, min_val, max_val)] with
    [min_val <= max_val] returns [size] integers (none for [size <= 0]), each
    between [min_val] and [max_val], after [size] draws; with
    [max_val < min_val] it raises ValueError as soon as one element is asked
    for, and for [size <= 0] it returns the empty list without drawing. *)
Theorem random_array_within_bounds :
  forall (size min_val max_val : Z) (g : Rng),
  ((min_val <= max_val)%Z ->
   exists l,
     generate_random_array size min_val max_val g
       = Ret (l, mkRng (tape g) (pos g + Z.to_nat size)) /\
     length l = Z.to_nat size /\
     Forall (fun x => (min_val <= x <= max_val)%Z) l) /\
  ((max_val < min_val)%Z -> (1 <= size)%Z ->
   generate_random_array size min_val max_val g = Raise ValueError) /\
  ((size <= 0)%Z ->
   generate_random_array size min_val max_val g = Ret ([], g)).
Proof.
  intros size a b g. unfold generate_random_array. split; [|split].
  - intros Hab. apply randints_spec. exact Hab.
  - intros Hab Hs. destruct (Z.to_nat size) as [|n] eqn:Hn; [lia|].
    cbn [randints]. rewrite randint_empty by exact Hab. reflexivity.
  - intros Hs. replace (Z.to_nat size) with 0 by lia. reflexivity.
Qed.

Lemma py_range_from_1 (size : Z) :
  py_range 1 (size + 1) = map Z.of_nat (seq 1 (Z.to_nat size)).
Proof.
  unfold py_range. replace (size + 1 - 1)%Z with size by lia.
  rewrite <- seq_shift, map_map. apply map_ext. intros i. lia.
Qed.

(** X16. The "Sorted" sample is exactly the list [1, 2, ..., size] (empty
    for [size <= 0]), is produced without a draw, and [merge_sort] returns
    it unchanged. *)
Theorem sorted_sample_unchanged_by_sort :
  forall (size : Z) (g : Rng) (track_steps : bool) (e : Engine Z),
  exists l e',
    generate_sample_data "Sorted" size g = Ret (l, g) /\
    l = map Z.of_nat (seq 1 (Z.to_nat size)) /\
    length l = Z.to_nat size /\
    (forall i, i < Z.to_nat size -> nth_error l i = Some (Z.of_nat (i + 1))) /\
    merge_sort Z.leb l track_steps e = Ok (l, e').
Proof.
  intros size g t e.
  destruct (@merge_sort_Z_result (py_range 1 (size + 1))
              (py_range 1 (size + 1)) t e) as (e' & Hr);
    [reflexivity|apply py_range_sorted|].
  exists (py_range 1 (size + 1)), e'. split; [reflexivity|].
  split; [apply py_range_from_1|].
  split; [rewrite py_range_length; lia|]. split; [|exact Hr].
  intros i Hi. rewrite py_range_from_1.
  rewrite nth_error_map, nth_error_seq.
  replace (i <? Z.to_nat size) with true by (symmetry; apply Nat.ltb_lt; lia).
  cbn. f_equal. lia.
Qed.

(** X17. Sorting the "Reverse Sorted" sample [size, ..., 1] gives the
    "Sorted" sample [1, ..., size]. *)
Theorem reverse_sample_sorts_to_sorted_sample :
  forall (size : Z) (g : Rng) (track_steps : bool) (e : Engine Z),
  exists l sorted e',
    generate_sample_data "Reverse Sorted" size g = Ret (l, g) /\
    generate_sample_data "Sorted" size g = Ret (sorted, g) /\
    merge_sort Z.leb l track_steps e = Ok (sorted, e').
Proof.
  intros size g t e.
  destruct (@merge_sort_Z_result (py_range_down size 0)
              (py_range 1 (size + 1)) t e) as (e' & Hr);
    [apply py_range_down_perm|apply py_range_sorted|].
  exists (py_range_down size 0), (py_range 1 (size + 1)), e'.
  repeat split. exact Hr.
Qed.

(** X18. For [size >= 1] the "Nearly Sorted" sample never raises, makes
    [2 * max(1, size // 10)] draws and is a permutation of [1, ..., size];
    sorting it gives the "Sorted" sample. *)
Theorem nearly_sorted_sample_is_permutation :
  forall (size : Z) (g : Rng) (track_steps : bool) (e : Engine Z),
  (1 <= size)%Z ->
  exists l g' e',
    generate_sample_data "Nearly Sorted" size g = Ret (l, g') /\
    pos g' = pos g + 2 * Z.to_nat (Z.max 1 (size / 10)) /\
    Permutation (py_range 1 (size + 1)) l /\
    merge_sort Z.leb l track_steps e = Ok (py_range 1 (size + 1), e').
Proof.
  intros size g t e Hs.
  destruct (@nearly_sorted_swaps_spec (Z.to_nat (Z.max 1 (size / 10))) size Hs
              (py_range 1 (size + 1)) g) as (l & Hl & Hp).
  { rewrite py_range_length. f_equal. lia. }
  destruct (@merge_sort_Z_result l (py_range 1 (size + 1)) t e) as (e' & Hr);
    [symmetry; exact Hp|apply py_range_sorted|].
  exists l, (mkRng (tape g) (pos g + 2 * Z.to_nat (Z.max 1 (size / 10)))), e'.
  split; [exact Hl|]. split; [reflexivity|]. split; assumption.
Qed.

(** X19. For [size <= 0] the "Nearly Sorted" branch raises ValueError: its
    loop runs [max(1, size // 10) = 1] time and calls
    [random.randint(0, size - 1)] on an empty range. *)
Theorem nearly_sorted_empty_raises :
  forall (size : Z) (g : Rng),
  (size <= 0)%Z ->
  generate_sample_data "Nearly Sorted" size g = Raise ValueError.
Proof.
  intros size g Hs. cbn [generate_sample_data String.eqb Ascii.eqb Bool.eqb].
  assert (Hd : (size / 10 <= 0)%Z)
    by (apply Z.div_le_upper_bound; lia).
  replace (Z.to_nat (Z.max 1 (size / 10))) with 1 by lia.
  cbn [nearly_sorted_swaps]. rewrite randint_empty by lia. reflexivity.
Qed.

Lemma in_py_range (a b x : Z) : (a <= x < b)%Z -> In x (py_range a b).
Proof.
  intros H. unfold py_range. apply in_map_iff.
  exists (Z.to_nat (x - a)). split; [lia|]. apply in_seq. lia.
Qed.

(** X20. For [size >= 2] the "Many Duplicates" sample has [size] elements,
    each between 1 and [size // 3 + 1], and therefore always contains some
    value at least twice. *)
Theorem many_duplicates_sample_repeats :
  forall (size : Z) (g : Rng),
  (2 <= size)%Z ->
  exists l g',
    generate_sample_data "Many Duplicates" size g = Ret (l, g') /\
    length l = Z.to_nat size /\
    Forall (fun x => (1 <= x <= size / 3 + 1)%Z) l /\
    ~ NoDup l.
Proof.
  intros size g Hs.
  assert (Hd : (0 <= size / 3 /\ 3 * (size / 3) <= size)%Z).
  { split; [apply Z.div_pos; lia|apply Z.mul_div_le; lia]. }
  destruct (@randints_spec (Z.to_nat size) 1 (size / 3 + 1) ltac:(lia) g)
    as (l & Hl & Hlen & Hall).
  exists l, (mkRng (tape g) (pos g + Z.to_nat size)).
  split; [exact Hl|]. split; [exact Hlen|]. split; [exact Hall|].
  intros Hnd.
  assert (Hincl : incl l (py_range 1 (size / 3 + 2))).
  { intros x Hx. rewrite Forall_forall in Hall. specialize (Hall x Hx).
    apply in_py_range. lia. }
  pose proof (NoDup_incl_length Hnd Hincl) as Hle.
  rewrite py_range_length, Hlen in Hle. lia.
Qed.

(** X21. For "Random", and for every data type that is none of the five
    known names, the sample has [size] elements, each between 1 and 100. *)
Theorem random_sample_within_1_100 :
  forall (data_type : String.string) (size : Z) (g : Rng),
  data_type <> "Sorted"%string -> data_type <> "Reverse Sorted"%string ->
  data_type <> "Nearly Sorted"%string ->
  data_type <> "Many Duplicates"%string ->
  exists l g',
    generate_sample_data data_type size g = Ret (l, g') /\
    length l = Z.to_nat size /\
    Forall (fun x => (1 <= x <= 100)%Z) l.
Proof.
  intros dt size g H1 H2 H3 H4.
  destruct (@randints_spec (Z.to_nat size) 1 100 ltac:(lia) g)
    as (l & Hl & Hlen & Hall).
  exists l, (mkRng (tape g) (pos g + Z.to_nat size)).
  split; [|split; assumption].
  unfold generate_sample_data.
  apply String.eqb_neq in H1, H2, H3, H4. rewrite H1, H2, H3, H4.
  destruct (String.eqb dt "Random"); exact Hl.
Qed.

(** X22. For [1 <= max_display < len(array)] the display is truncated: it
    shows the first [max_display // 2] elements, then the last
    [(max_display + 1) // 2] elements (one more than the head when
    [max_display] is odd), then the length; the elements shown are
    [max_display] in number, none is shown twice, and at least one element
    in between is hidden. *)
Theorem format_array_display_truncation :
  forall (array : list Z) (max_display : Z),
  (1 <= max_display < Z.of_nat (length array))%Z ->
  exists head hidden tail,
    array = head ++ hidden ++ tail /\
    Z.of_nat (length head) = (max_display / 2)%Z /\
    Z.of_nat (length tail) = ((max_display + 1) / 2)%Z /\
    Z.of_nat (length hidden) = (Z.of_nat (length array) - max_display)%Z /\
    format_array_display array max_display
    = String.append (str_list head)
        (String.append " ... "
           (String.append (str_list tail)
              (String.append " (length: "
                 (String.append (str_int (Z.of_nat (length array))) ")")))).
Proof.
  intros array m Hm.
  assert (Hneg : ((- m) / 2 = - ((m + 1) / 2))%Z)
    by (Z.to_euclidean_division_equations; lia).
  assert (Hh : (0 <= m / 2)%Z)
    by (Z.to_euclidean_division_equations; lia).
  assert (Hk : (0 < (m + 1) / 2)%Z)
    by (Z.to_euclidean_division_equations; lia).
  assert (Hsum : (m / 2 + (m + 1) / 2 = m)%Z)
    by (Z.to_euclidean_division_equations; lia).
  set (n := length array) in *.
  set (h := Z.to_nat (m / 2)). set (k := Z.to_nat ((m + 1) / 2)).
  exists (firstn h array), (firstn (n - k - h) (skipn h array)),
         (skipn (n - k) array).
  split; [|split; [|split; [|split]]].
  - rewrite <- (firstn_skipn h array) at 1. f_equal.
    rewrite <- (firstn_skipn (n - k - h) (skipn h array)) at 1. f_equal.
    rewrite skipn_skipn. f_equal. unfold h, k. lia.
  - rewrite length_firstn. fold n. unfold h. lia.
  - rewrite length_skipn. fold n. unfold k. lia.
  - rewrite length_firstn, length_skipn. fold n. unfold h, k. lia.
  - unfold format_array_display. fold n.
    replace (Z.of_nat n <=? m)%Z with false by (symmetry; apply Z.leb_gt; lia).
    rewrite py_slice_head by (fold n; lia).
    rewrite Hneg, py_slice_tail by (fold n; lia). reflexivity.
Qed.

(** X23. With [max_display = 0] and a non-empty array nothing is truncated:
    the head shown is empty and the tail shown is the whole array, because
    [array[-0 // 2:]] is [array[0:]]. *)
Theorem format_array_display_zero :
  forall (array : list Z),
  array <> [] ->
  format_array_display array 0
  = String.append "[] ... "
      (String.append (str_list array)
         (String.append " (length: "
            (String.append (str_int (Z.of_nat (length array))) ")"))).
Proof.
  intros array Hne.
  assert (Hn : 1 <= length array) by (destruct array; [congruence|cbn; lia]).
  unfold format_array_display.
  replace (Z.of_nat (length array) <=? 0)%Z with false
    by (symmetry; apply Z.leb_gt; lia).
  rewrite py_slice_head by (cbn; lia).
  change ((- 0) / 2)%Z with 0%Z. change (0 / 2)%Z with 0%Z.
  assert (Ht : py_slice array (Some 0%Z) None = array).
  { unfold py_slice, slice_bound. cbn [Z.ltb Z.compare].
    rewrite Z.min_l, Z.sub_0_r, Nat2Z.id by lia. cbn [Z.to_nat skipn].
    apply firstn_all. }
  rewrite Ht. reflexivity.
Qed.

(** ** Concrete runs for the samples and the display *)

Lemma random_array_within_bounds_witness :
  (1 <= 100)%Z /\
  (exists l,
     generate_random_array 10 1 100 (mkRng (fun n => Z.of_nat n) 0)
       = Ret (l, mkRng (fun n => Z.of_nat n) (0 + Z.to_nat 10)) /\
     length l = Z.to_nat 10 /\
     Forall (fun x => (1 <= x <= 100)%Z) l) /\
  ((0 < 5)%Z /\ (1 <= 3)%Z /\
   generate_random_array 3 5 0 (mkRng (fun n => Z.of_nat n) 0)
     = Raise ValueError) /\
  ((0 <= 0)%Z /\
   generate_random_array 0 5 0 (mkRng (fun n => Z.of_nat n) 0)
     = Ret ([], mkRng (fun n => Z.of_nat n) 0)).
Proof.
  split; [lia|]. split; [|split].
  - apply (proj1 (@random_array_within_bounds 10 1 100
                    (mkRng (fun n => Z.of_nat n) 0))). lia.
  - split; [lia|]. split; [lia|].
    apply (proj1 (proj2 (@random_array_within_bounds 3 5 0
                           (mkRng (fun n => Z.of_nat n) 0)))); lia.
  - split; [lia|].
    apply (proj2 (proj2 (@random_array_within_bounds 0 5 0
                           (mkRng (fun n => Z.of_nat n) 0)))). lia.
Defined.

Lemma nearly_sorted_sample_is_permutation_witness :
  (1 <= 12)%Z /\
  exists l g' e',
    generate_sample_data "Nearly Sorted" 12
      (mkRng (fun n => Z.of_nat (7 * n + 3)) 0) = Ret (l, g') /\
    pos g' = 0 + 2 * Z.to_nat (Z.max 1 (12 / 10)) /\
    Permutation (py_range 1 (12 + 1)) l /\
    merge_sort Z.leb l true (init Z) = Ok (py_range 1 (12 + 1), e').
Proof.
  split; [lia|].
  apply (@nearly_sorted_sample_is_permutation 12
           (mkRng (fun n => Z.of_nat (7 * n + 3)) 0) true (init Z)).
  lia.
Defined.

Lemma nearly_sorted_empty_raises_witness :
  (0 <= 0)%Z /\
  generate_sample_data "Nearly Sorted" 0 (mkRng (fun _ => 0%Z) 0)
    = Raise ValueError.
Proof.
  split; [lia|].
  apply (@nearly_sorted_empty_raises 0 (mkRng (fun _ => 0%Z) 0)). lia.
Defined.

Lemma many_duplicates_sample_repeats_witness :
  (2 <= 6)%Z /\
  exists l g',
    generate_sample_data "Many Duplicates" 6 (mkRng (fun n => Z.of_nat n) 0)
      = Ret (l, g') /\
    length l = Z.to_nat 6 /\
    Forall (fun x => (1 <= x <= 6 / 3 + 1)%Z) l /\
    ~ NoDup l.
Proof.
  split; [lia|].
  apply (@many_duplicates_sample_repeats 6 (mkRng (fun n => Z.of_nat n) 0)).
  lia.
Defined.

Lemma random_sample_within_1_100_witness :
  exists l g',
    generate_sample_data "Shuffled" 5 (mkRng (fun n => Z.of_nat n) 0)
      = Ret (l, g') /\
    length l = Z.to_nat 5 /\
    Forall (fun x => (1 <= x <= 100)%Z) l.
Proof.
  apply (@random_sample_within_1_100 "Shuffled" 5
           (mkRng (fun n => Z.of_nat n) 0)); discriminate.
Defined.

Lemma format_array_display_truncation_witness :
  (1 <= 5 < Z.of_nat (length (py_range 1 8)))%Z /\
  format_array_display (py_range 1 8) 5
    = "[1, 2] ... [5, 6, 7] (length: 7)"%string /\
  exists head hidden tail,
    py_range 1 8 = head ++ hidden ++ tail /\
    Z.of_nat (length head) = (5 / 2)%Z /\
    Z.of_nat (length tail) = ((5 + 1) / 2)%Z /\
    Z.of_nat (length hidden) = (Z.of_nat (length (py_range 1 8)) - 5)%Z /\
    format_array_display (py_range 1 8) 5
    = String.append (str_list head)
        (String.append " ... "
           (String.append (str_list tail)
              (String.append " (length: "
                 (String.append
                    (str_int (Z.of_nat (length (py_range 1 8)))) ")")))).
Proof.
  split; [rewrite py_range_length; lia|]. split; [vm_compute; reflexivity|].
  apply (@format_array_display_truncation (py_range 1 8) 5).
  rewrite py_range_length. lia.
Defined.

Lemma format_array_display_zero_witness :
  [1; 2; 3]%Z <> [] /\
  format_array_display [1; 2; 3]%Z 0
  = String.append "[] ... "
      (String.append (str_list [1; 2; 3]%Z)
         (String.append " (length: "
            (String.append (str_int (Z.of_nat (length [1; 2; 3]%Z))) ")"))).
Proof.
  split; [discriminate|].
  apply (@format_array_display_zero [1; 2; 3]%Z). discriminate.
Defined.

Lemma sorted_sample_unchanged_by_sort_witness :
  exists l e',
    generate_sample_data "Sorted" 3 (mkRng (fun _ => 0%Z) 0)
      = Ret (l, mkRng (fun _ => 0%Z) 0) /\
    l = [1; 2; 3]%Z /\
    nth_error l 2 = Some 3%Z /\
    merge_sort Z.leb l true (init Z) = Ok (l, e').
Proof.
  destruct (@sorted_sample_unchanged_by_sort 3 (mkRng (fun _ => 0%Z) 0)
              true (init Z)) as (l & e' & Hg & Hl & _ & Hn & Hs).
  exists l, e'. split; [exact Hg|]. split; [exact Hl|].
  split; [|exact Hs]. apply (Hn 2). cbn. lia.
Defined.
